(** * Clarity: noisy key exchange (Clarity.js)

    A shallow embedding of [src/Clarity.js] and the properties of its
    256 independent one-bit exchanges.

    Data: a JavaScript [BigInt] is a [Z]; the small [Number]s of [addNoise]
    ([randomByte % 3], [noiseCategory - 1]) are exact integers and are [Z]
    too; an element of a [Uint8Array] is a [byte]; an [Array] is a [list].

    Effects: [crypto.getRandomValues] is the only effect of the script.  The
    generator is an infinite tape of bytes with a cursor; every call reads
    the next bytes and moves the cursor.  Exceptions ([RangeError] of a
    BigInt division by zero, [TypeError] of arithmetic on [undefined],
    [QuotaExceededError] of a request for more than 65536 random bytes) are
    results of the monad. *)

From Stdlib Require Import ZArith Bool Arith String Ascii List Lia.
From Stdlib Require Import Strings.Byte Strings.HexString FinFun Zpow_facts.
Import ListNotations.

#[local] Open Scope Z_scope.

(** ** The random source and the monad of the script *)

Inductive exn : Type :=
| RangeError
| TypeError
| QuotaExceededError.

Record Crypto : Type := mkCrypto {
  entropy : N -> byte;   (* the bytes the generator will ever produce *)
  drawn : N              (* how many of them have been handed out *)
}.

Definition M (A : Type) : Type := Crypto -> exn + (A * Crypto).

Definition ret {A : Type} (a : A) : M A := fun c => inr (a, c).

Definition throw {A : Type} (e : exn) : M A := fun _ => inl e.

Definition bind {A B : Type} (m : M A) (k : A -> M B) : M B :=
  fun c =>
    match m c with
    | inl e => inl e
    | inr (a, c') => k a c'
    end.

Notation "x <- m ;; k" := (bind m (fun x => k))
  (at level 61, m at next level, right associativity).

Definition advance (c : Crypto) (n : nat) : Crypto :=
  mkCrypto (entropy c) (N.of_nat n + drawn c).

Definition peek (c : Crypto) (n : nat) : list byte :=
  map (fun k => entropy c (N.of_nat k + drawn c)%N) (seq 0 n).

(** The largest array [crypto.getRandomValues] fills, in bytes. *)
Definition QUOTA : N := 65536%N.

(** [crypto.getRandomValues(new Uint8Array(n))]: the array filled with the
    next [n] bytes of the generator; a request for more than [QUOTA] bytes
    throws a [QuotaExceededError]. *)
Definition getRandomValues (n : nat) : M (list byte) :=
  fun c =>
    if (QUOTA <? N.of_nat n)%N then inl QuotaExceededError
    else inr (peek c n, advance c n).

(** ** BigInt operators *)

Definition byteval (b : byte) : Z := Z.of_N (Byte.to_N b).

(** [a % b] on BigInt: the remainder has the sign of the dividend, and a
    zero divisor throws. *)
Definition bigint_rem (a b : Z) : M Z :=
  if b =? 0 then throw RangeError else ret (Z.rem a b).

(** [a * b] on BigInt where an operand may come from an array access that
    is out of range: [undefined * 1n] throws. *)
Definition bigint_mul (a b : option Z) : M Z :=
  match a, b with
  | Some x, Some y => ret (x * y)
  | _, _ => throw TypeError
  end.

(** [Array.prototype.map] with a callback that may draw random bytes or
    throw: the callback sees the element and its index, in index order. *)
Fixpoint mapM_from {A B : Type} (f : A -> nat -> M B) (i : nat) (l : list A)
  : M (list B) :=
  match l with
  | [] => ret []
  | x :: xs =>
      y <- f x i ;;
      ys <- mapM_from f (S i) xs ;;
      ret (y :: ys)
  end.

Definition mapM {A B : Type} (f : A -> nat -> M B) (l : list A) : M (list B) :=
  mapM_from f 0 l.

(** ** Parameters (lines 41-44) *)

Definition Q : Z := Z.shiftl 1 256 - 189.
Definition SECRET_MAX : Z := Z.shiftl 1 40.
Definition NOISE_MAX : Z := 1.
Definition NUM_BITS : nat := 256.

(** ** randomBigInt (lines 47-57) *)

(** [max.toString(2).length]: the number of binary digits, one for zero, and
    one more for the sign of a negative number. *)
Definition toString2_length (max : Z) : nat :=
  match max with
  | Z0 => 1
  | Zpos p => Pos.size_nat p
  | Zneg p => S (Pos.size_nat p)
  end.

(** [Math.ceil(bits / 8)]. *)
Definition ceil8 (bits : nat) : nat := ((bits + 7) / 8)%nat.

Definition byteCount (max : Z) : nat := ceil8 (toString2_length max).

(** The loop of lines 52-55: [i] runs over all [bytes] indices of the array,
    which has exactly [bytes] elements, so it is a left fold over the
    array. *)
Definition accumulate (array : list byte) : Z :=
  fold_left (fun result b => Z.shiftl result 8 + byteval b) array 0.

Definition randomBigInt (max : Z) : M Z :=
  let bits := toString2_length max in
  let bytes := ceil8 bits in
  array <- getRandomValues bytes ;;
  let result := accumulate array in
  bigint_rem result max.

(** ** addNoise (lines 60-68) *)

(** Lines 63-64: the noise that [addNoise] derives from its random byte. *)
Definition noiseOfByte (randomByte : byte) : Z :=
  let noiseCategory := Z.rem (byteval randomByte) 3 in
  noiseCategory - 1.

(** [randomByte] is element 0 of a one-element array; on an empty array it
    would be [undefined], and [BigInt(NaN)] throws a [RangeError]. *)
Definition addNoise (value : Z) : M Z :=
  array <- getRandomValues 1 ;;
  match array with
  | randomByte :: _ =>
      let noise := noiseOfByte randomByte in
      bigint_rem (value + noise + Q) Q
  | [] => throw RangeError
  end.

(** ** Reconciliation and key assembly (lines 91-97) *)

(** The callback [val => (val >> 255n) & 1n]. *)
Definition extractBit (val : Z) : Z := Z.land (Z.shiftr val 255) 1.

Definition bitsToBigInt (bits : list Z) : Z :=
  fold_left (fun acc bit => Z.lor (Z.shiftl acc 1) bit) bits 0.

(** [n.toString(16)]: lower-case digits, no leading zero, a sign for a
    negative number. *)
Definition toString16 (n : Z) : string :=
  match n with
  | Z0 => "0"
  | Zpos p => HexString.Raw.of_pos p ""
  | Zneg p => String "-" (HexString.Raw.of_pos p "")
  end.

Fixpoint replicate (n : nat) (ch : ascii) : string :=
  match n with
  | O => EmptyString
  | S n' => String ch (replicate n' ch)
  end.

(** [s.padStart(targetLength, ch)] for a one-character filler. *)
Definition padStart (targetLength : nat) (ch : ascii) (s : string) : string :=
  if (targetLength <=? String.length s)%nat then s
  else (replicate (targetLength - String.length s) ch ++ s)%string.

Definition keyToHex (key : Z) : string := padStart 64 "0" (toString16 key).

(** ** The script (lines 73-105)

    The record holds every top-level constant of the script; the last three
    fields are what the three [console.log] calls print. *)

Record Run : Type := mkRun {
  G_ARRAY : list Z;
  aliceSecrets : list Z;
  alicePublics : list Z;
  alicePublicsNoisy : list Z;
  bobSecrets : list Z;
  bobPublics : list Z;
  bobPublicsNoisy : list Z;
  sharedAlice : list Z;
  sharedBob : list Z;
  keyAlice : list Z;
  keyBob : list Z;
  keyAliceBigInt : Z;
  keyBobBigInt : Z;
  aliceLine : string;
  bobLine : string;
  keysMatch : bool
}.

(** [Array(NUM_BITS).fill(null)]. *)
Definition nulls : list unit := repeat tt NUM_BITS.

(** The callback [(secret, i) => (G_ARRAY[i] * secret) % Q]. *)
Definition publicOf (G : list Z) (secret : Z) (i : nat) : M Z :=
  p <- bigint_mul (nth_error G i) (Some secret) ;;
  bigint_rem p Q.

(** The callback [(pub, i) => (pub * secrets[i]) % Q]. *)
Definition sharedOf (secrets : list Z) (pub : Z) (i : nat) : M Z :=
  p <- bigint_mul (Some pub) (nth_error secrets i) ;;
  bigint_rem p Q.

Definition script : M Run :=
  G <- mapM (fun _ _ => randomBigInt Q) nulls ;;
  aS <- mapM (fun _ _ => randomBigInt SECRET_MAX) nulls ;;
  aP <- mapM (publicOf G) aS ;;
  aN <- mapM (fun pub _ => addNoise pub) aP ;;
  bS <- mapM (fun _ _ => randomBigInt SECRET_MAX) nulls ;;
  bP <- mapM (publicOf G) bS ;;
  bN <- mapM (fun pub _ => addNoise pub) bP ;;
  sA <- mapM (sharedOf aS) bN ;;
  sB <- mapM (sharedOf bS) aN ;;
  let kA := map extractBit sA in
  let kB := map extractBit sB in
  let kAi := bitsToBigInt kA in
  let kBi := bitsToBigInt kB in
  ret (mkRun G aS aP aN bS bP bN sA sB kA kB kAi kBi
             (keyToHex kAi) (keyToHex kBi) (kAi =? kBi)).

(** The outcome of the script for a generator, without the generator's final
    state. *)
Definition outcome (c : Crypto) : exn + Run :=
  match script c with
  | inl e => inl e
  | inr (r, _) => inr r
  end.

Definition noRun : Run :=
  mkRun [] [] [] [] [] [] [] [] [] [] [] 0 0 "" "" true.

(** The run of the script; [script_returns] below shows that the script
    never throws, so the default is never taken. *)
Definition theRun (c : Crypto) : Run :=
  match outcome c with
  | inr r => r
  | inl _ => noRun
  end.

(** ** What the script draws

    The script reads the generator in a fixed order: 256 bases of 32 bytes,
    Alice's 256 secrets of 6 bytes, Alice's 256 noise bytes, Bob's 256
    secrets of 6 bytes, Bob's 256 noise bytes. *)

Definition OFF_G : nat := 0.
Definition OFF_AS : nat := OFF_G + 32 * NUM_BITS.
Definition OFF_AN : nat := OFF_AS + 6 * NUM_BITS.
Definition OFF_BS : nat := OFF_AN + NUM_BITS.
Definition OFF_BN : nat := OFF_BS + 6 * NUM_BITS.
Definition TOTAL : nat := OFF_BN + NUM_BITS.

(** The value [randomBigInt max] returns at generator state [c]. *)
Definition drawBigInt (max : Z) (c : Crypto) : Z :=
  Z.rem (accumulate (peek c (byteCount max))) max.

(** The [i]-th of the integers drawn from offset [off] on. *)
Definition drawnInt (max : Z) (off : nat) (c : Crypto) (i : nat) : Z :=
  drawBigInt max (advance c (off + byteCount max * i)).

(** The noise of the [i]-th call of [addNoise] from offset [off] on. *)
Definition drawnNoise (off : nat) (c : Crypto) (i : nat) : Z :=
  noiseOfByte (entropy c (N.of_nat (off + i) + drawn c)%N).

Definition aliceNoise (c : Crypto) (i : nat) : Z := drawnNoise OFF_AN c i.
Definition bobNoise (c : Crypto) (i : nat) : Z := drawnNoise OFF_BN c i.

Fixpoint zipWith {A B C : Type} (f : A -> B -> C) (l1 : list A) (l2 : list B)
  : list C :=
  match l1, l2 with
  | a :: l1', b :: l2' => f a b :: zipWith f l1' l2'
  | _, _ => []
  end.

Definition tabulate {A : Type} (f : nat -> A) (n : nat) : list A :=
  map f (seq 0 n).
(** ** Counting the draws

    The arrays [crypto.getRandomValues] can fill: every byte, and every array
    of [n] bytes (for [n] within the quota), once. *)

Definition byteOfNat (n : nat) : byte :=
  match Byte.of_nat n with
  | Some b => b
  | None => x00
  end.

Definition allBytes : list byte := map byteOfNat (seq 0 256).

Fixpoint allArrays (n : nat) : list (list byte) :=
  match n with
  | O => [[]]
  | S n' => flat_map (fun b => map (cons b) (allArrays n')) allBytes
  end.

(** The number of bytes for which [addNoise] draws the noise [n]. *)
Definition noiseCount (n : Z) : nat :=
  length (filter (fun randomByte => noiseOfByte randomByte =? n) allBytes).

(** The number of arrays for which [randomBigInt max] returns [v]: the
    arrays of the length it asks for, put through its loop and its final
    remainder. *)
Definition preimageCount (max v : Z) : nat :=
  length (filter (fun array => Z.rem (accumulate array) max =? v)
                 (allArrays (byteCount max))).

(** The run written as a function of the draws; [script_described] shows
    that it is the run of the script. *)
Definition described (c : Crypto) : Run :=
  let G := tabulate (drawnInt Q OFF_G c) NUM_BITS in
  let aS := tabulate (drawnInt SECRET_MAX OFF_AS c) NUM_BITS in
  let aP := zipWith (fun g s => Z.rem (g * s) Q) G aS in
  let aN := zipWith (fun p n => Z.rem (p + n + Q) Q) aP
                    (tabulate (aliceNoise c) NUM_BITS) in
  let bS := tabulate (drawnInt SECRET_MAX OFF_BS c) NUM_BITS in
  let bP := zipWith (fun g s => Z.rem (g * s) Q) G bS in
  let bN := zipWith (fun p n => Z.rem (p + n + Q) Q) bP
                    (tabulate (bobNoise c) NUM_BITS) in
  let sA := zipWith (fun pub s => Z.rem (pub * s) Q) bN aS in
  let sB := zipWith (fun pub s => Z.rem (pub * s) Q) aN bS in
  let kA := map extractBit sA in
  let kB := map extractBit sB in
  let kAi := bitsToBigInt kA in
  let kBi := bitsToBigInt kB in
  mkRun G aS aP aN bS bP bN sA sB kA kB kAi kBi
        (keyToHex kAi) (keyToHex kBi) (kAi =? kBi).

(** ** Auxiliary definitions of the statements *)

(** The residue range of the modulus. *)
Definition inQ (x : Z) : Prop := 0 <= x < Q.

(** A generator that only ever produces the byte [b]. *)
Definition constant (b : byte) : Crypto := mkCrypto (fun _ => b) 0%N.

(** A key bit. *)
Definition isBit (b : Z) : Prop := b = 0 \/ b = 1.

(** The sum of the bits weighted most-significant first, as the
    specification words it: bit [i] of [n] bits has weight [2^(n-1-i)]. *)
Definition weightedSum (bits : list Z) : Z :=
  let n := length bits in
  fold_right Z.add 0
    (map (fun i => nth i bits 0 * 2 ^ Z.of_nat (n - 1 - i)) (seq 0 n)).

(** The integers below [n], in order. *)
Definition zrange (n : nat) : list Z := map Z.of_nat (seq 0 n).

(** Modelled from the spec: the decoding of the hexadecimal key, which the
    script does not have (it only prints the key).  The digits are read as
    a hexadecimal numeral, as [BigInt("0x" + s)] does. *)
Definition hexToBigInt (s : string) : Z := Z.of_N (HexString.Raw.to_N s 0%N).

(** Modelled from the spec: the re-extraction of [n] bits from a key,
    most-significant first, bit [i] being [(key >> (n-1-i)) & 1]. *)
Definition bitsOfKey (n : nat) (key : Z) : list Z :=
  map (fun i => Z.land (Z.shiftr key (Z.of_nat (n - 1 - i))) 1) (seq 0 n).

(** Modelled from the spec: the decoding of a printed key into its 256
    bits. *)
Definition decodeKey (s : string) : list Z := bitsOfKey NUM_BITS (hexToBigInt s).

(** ** Statements about the bytes a run reads and about its products *)

(** The two generators produce the same [k]-th byte from their cursors on. *)
Definition sameByte (c1 c2 : Crypto) (k : nat) : Prop :=
  entropy c1 (N.of_nat k + drawn c1)%N = entropy c2 (N.of_nat k + drawn c2)%N.

(** The two generators produce the same next [n] bytes. *)
Definition agreeOn (c1 c2 : Crypto) (n : nat) : Prop :=
  forall k, (k < n)%nat -> sameByte c1 c2 k.

(** The product [G_ARRAY[i] * aliceSecrets[i] * bobSecrets[i] mod Q] that
    both shared values of dimension [i] would be without noise. *)
Definition noiselessProduct (r : Run) (i : nat) : Z :=
  (nth i (G_ARRAY r) 0 * nth i (aliceSecrets r) 0 * nth i (bobSecrets r) 0) mod Q.

(** At least [2^40] away from 0, from [2^255] and from [Q]. *)
Definition awayFromBoundaries (t : Z) : Prop :=
  2 ^ 40 <= t < 2 ^ 255 - 2 ^ 40 \/ 2 ^ 255 + 2 ^ 40 <= t < Q - 2 ^ 40.

(** The two generators produce the same bytes for dimension [i]: the 32
    bytes of its basis, the 6 bytes of each party's secret and each party's
    noise byte. *)
Definition sameDimensionBytes (c1 c2 : Crypto) (i : nat) : Prop :=
  (forall k, (k < 32)%nat -> sameByte c1 c2 (OFF_G + 32 * i + k)) /\
  (forall k, (k < 6)%nat -> sameByte c1 c2 (OFF_AS + 6 * i + k)) /\
  sameByte c1 c2 (OFF_AN + i) /\
  (forall k, (k < 6)%nat -> sameByte c1 c2 (OFF_BS + 6 * i + k)) /\
  sameByte c1 c2 (OFF_BN + i).

(** The test of [awayFromBoundaries]. *)
Definition awayFromBoundariesb (t : Z) : bool :=
  ((2 ^ 40 <=? t) && (t <? 2 ^ 255 - 2 ^ 40)) ||
  ((2 ^ 255 + 2 ^ 40 <=? t) && (t <? Q - 2 ^ 40)).

(** ** Generators of the examples *)

(** A generator that differs from the all-zero one in the first byte of the
    basis of dimension 1 only. *)
Definition oneOff : Crypto :=
  mkCrypto (fun n => if (n =? 32)%N then xff else x00) 0%N.

(** A generator that produces zero bytes for the 11776 bytes a run reads
    and other bytes afterwards. *)
Definition zerosThenOnes : Crypto :=
  mkCrypto (fun n => if (n <? 11776)%N then x00 else xff) 0%N.

(** A generator for which every basis is [2^255], every secret is 1, Alice
    draws the noise 0 and Bob draws the noise -1. *)
Definition mismatchGen : Crypto :=
  mkCrypto
    (fun n =>
       if n <? 8192 then (if n mod 32 =? 0 then x80 else x00)
       else if n <? 9728 then (if (n - 8192) mod 6 =? 5 then x01 else x00)
       else if n <? 9984 then x01
       else if n <? 11520 then (if (n - 9984) mod 6 =? 5 then x01 else x00)
       else x00)%N
    0%N.

(** * Properties *)

(** ** Parameters *)

Lemma Q_value : Q = 2 ^ 256 - 189.
Proof. reflexivity. Qed.

Lemma SECRET_MAX_value : SECRET_MAX = 2 ^ 40.
Proof. reflexivity. Qed.

Lemma Q_pos : 0 < Q.
Proof. reflexivity. Qed.

Lemma Q_neqb : (Q =? 0) = false.
Proof. reflexivity. Qed.

Lemma byteCount_Q : byteCount Q = 32%nat.
Proof. reflexivity. Qed.

Lemma byteCount_SECRET_MAX : byteCount SECRET_MAX = 6%nat.
Proof. reflexivity. Qed.

#[local] Opaque Q SECRET_MAX.

(** ** The monad and the generator *)

Lemma bind_ok {A B : Type} (m : M A) (k : A -> M B) c a c' :
  m c = inr (a, c') -> bind m k c = k a c'.
Proof. intros H. unfold bind. now rewrite H. Qed.

Lemma advance_0 c : advance c 0 = c.
Proof. now destruct c as [e d]. Qed.

Lemma advance_advance c a b : advance (advance c a) b = advance c (a + b).
Proof. unfold advance. cbn. f_equal. lia. Qed.

Lemma advance_eq c a b : a = b -> advance c a = advance c b.
Proof. now intros ->. Qed.

(** ** Lists *)

Lemma tabulate_length {A : Type} (f : nat -> A) n : length (tabulate f n) = n.
Proof. unfold tabulate. now rewrite length_map, length_seq. Qed.

Lemma zipWith_length {A B C : Type} (f : A -> B -> C) l1 l2 :
  length (zipWith f l1 l2) = Nat.min (length l1) (length l2).
Proof.
  revert l2. induction l1 as [|a l1 IH]; intros [|b l2]; cbn; auto.
Qed.

Lemma zipWith_via_map {A B C D : Type} (F : A -> D -> C) (h : B -> D) ks l :
  zipWith (fun k x => F x (h k)) ks l = zipWith F l (map h ks).
Proof.
  revert l. induction ks as [|k ks IH]; intros [|x l]; cbn; auto.
  now rewrite IH.
Qed.

Lemma zipWith_nulls {A C : Type} (h : A -> C) ks :
  zipWith (fun k (_ : unit) => h k) ks (repeat tt (length ks)) = map h ks.
Proof. induction ks as [|k ks IH]; cbn; auto. now rewrite IH. Qed.

Lemma zipWith_nth {A B C : Type} (f : A -> B -> C) l1 l2 i da db dc :
  (i < length l1)%nat -> (i < length l2)%nat ->
  nth i (zipWith f l1 l2) dc = f (nth i l1 da) (nth i l2 db).
Proof.
  revert l2 i. induction l1 as [|a l1 IH]; intros [|b l2] [|i]; cbn; try lia; auto.
  intros. apply IH; lia.
Qed.

Lemma tabulate_nth {A : Type} (f : nat -> A) n i d :
  (i < n)%nat -> nth i (tabulate f n) d = f i.
Proof.
  intros H. unfold tabulate.
  rewrite (nth_indep _ d (f 0%nat)) by now rewrite length_map, length_seq.
  rewrite map_nth, seq_nth; auto.
Qed.

Lemma zipWith_Forall {A B C : Type} (f : A -> B -> C) (P : C -> Prop) l1 l2 :
  (forall a b, In a l1 -> In b l2 -> P (f a b)) ->
  Forall P (zipWith f l1 l2).
Proof.
  revert l2. induction l1 as [|a l1 IH]; intros [|b l2] H; cbn; auto.
  constructor.
  - apply H; now left.
  - apply IH. intros; apply H; now right.
Qed.

Lemma zipWith_ext_in {A B C : Type} (f g : A -> B -> C) l1 l2 :
  (forall a b, In a l1 -> In b l2 -> f a b = g a b) ->
  zipWith f l1 l2 = zipWith g l1 l2.
Proof.
  revert l2. induction l1 as [|a l1 IH]; intros [|b l2] H; cbn; auto.
  f_equal.
  - apply H; now left.
  - apply IH. intros; apply H; now right.
Qed.

Lemma skipn_nth_error {A : Type} (l : list A) : forall i x,
  nth_error l i = Some x -> skipn i l = x :: skipn (S i) l.
Proof.
  induction l as [|a l IH]; intros [|i] x H; cbn in *; try discriminate.
  - now injection H as ->.
  - now apply IH.
Qed.

(** ** The calls of the script *)

Lemma getRandomValues_ok n c :
  (N.of_nat n <= QUOTA)%N -> getRandomValues n c = inr (peek c n, advance c n).
Proof.
  intros H. unfold getRandomValues. apply N.ltb_ge in H. now rewrite H.
Qed.

Lemma getRandomValues_quota n c :
  (QUOTA < N.of_nat n)%N -> getRandomValues n c = inl QuotaExceededError.
Proof.
  intros H. unfold getRandomValues. apply N.ltb_lt in H. now rewrite H.
Qed.

Lemma one_byte_in_quota : (N.of_nat 1 <= QUOTA)%N.
Proof. cbv. discriminate. Qed.

Lemma randomBigInt_eq max c :
  max <> 0 -> (N.of_nat (byteCount max) <= QUOTA)%N ->
  randomBigInt max c = inr (drawBigInt max c, advance c (byteCount max)).
Proof.
  intros Hm Hq. unfold randomBigInt, bind.
  fold (byteCount max). rewrite (getRandomValues_ok _ c Hq).
  unfold bigint_rem. apply Z.eqb_neq in Hm. now rewrite Hm.
Qed.

Lemma randomBigInt_quota max c :
  (QUOTA < N.of_nat (byteCount max))%N ->
  randomBigInt max c = inl QuotaExceededError.
Proof.
  intros Hq. unfold randomBigInt, bind.
  fold (byteCount max). now rewrite (getRandomValues_quota _ c Hq).
Qed.

Lemma addNoise_eq value c :
  addNoise value c =
  inr (Z.rem (value + noiseOfByte (entropy c (drawn c)) + Q) Q,
       advance c 1).
Proof.
  unfold addNoise, bind. rewrite (getRandomValues_ok 1 c one_byte_in_quota).
  unfold peek, bigint_rem. cbn [seq map].
  now rewrite Q_neqb.
Qed.

Lemma mapM_from_draw {A B : Type} (f : A -> nat -> M B) (g : A -> Crypto -> B) w :
  (forall x i c, f x i c = inr (g x c, advance c w)) ->
  forall l i s c,
    mapM_from f i l (advance c (w * s)) =
    inr (zipWith (fun k x => g x (advance c (w * k))) (seq s (length l)) l,
         advance c (w * (s + length l))).
Proof.
  intros Hf. induction l as [|x l IH]; intros i s c.
  - cbn. unfold ret. do 2 f_equal. apply advance_eq. lia.
  - cbn [mapM_from length seq zipWith].
    rewrite (bind_ok _ _ _ _ _ (Hf x i _)).
    rewrite advance_advance.
    replace (w * s + w)%nat with (w * S s)%nat by lia.
    rewrite (bind_ok _ _ _ _ _ (IH (S i) (S s) c)).
    unfold ret. do 2 f_equal. apply advance_eq. lia.
Qed.

Lemma mapM_randomBigInt max off c :
  max <> 0 -> (N.of_nat (byteCount max) <= QUOTA)%N ->
  mapM (fun _ _ => randomBigInt max) nulls (advance c off) =
  inr (tabulate (drawnInt max off c) NUM_BITS,
       advance c (off + byteCount max * NUM_BITS)).
Proof.
  intros Hm Hq. unfold mapM.
  pose proof (mapM_from_draw (fun (_ : unit) (_ : nat) => randomBigInt max)
                (fun _ c => drawBigInt max c) (byteCount max)
                (fun _ _ c => randomBigInt_eq max c Hm Hq)
                nulls 0%nat 0%nat (advance c off)) as H.
  rewrite Nat.mul_0_r, advance_0 in H. rewrite H. clear H.
  rewrite advance_advance. f_equal. f_equal.
  unfold nulls. rewrite repeat_length.
  pose proof (zipWith_nulls
                (fun k => drawBigInt max (advance (advance c off) (byteCount max * k)))
                (seq 0 NUM_BITS)) as Hz.
  rewrite length_seq in Hz. rewrite Hz. clear Hz.
  unfold tabulate. apply map_ext. intros k.
  unfold drawnInt. now rewrite advance_advance.
Qed.

Lemma mapM_addNoise off c l :
  length l = NUM_BITS ->
  mapM (fun pub _ => addNoise pub) l (advance c off) =
  inr (zipWith (fun p n => Z.rem (p + n + Q) Q) l
               (tabulate (drawnNoise off c) NUM_BITS),
       advance c (off + NUM_BITS)).
Proof.
  intros Hl. unfold mapM.
  pose proof (mapM_from_draw (fun pub (_ : nat) => addNoise pub)
                (fun pub c => Z.rem (pub + noiseOfByte (entropy c (drawn c)) + Q) Q)
                1%nat (fun x _ c => addNoise_eq x c)
                l 0%nat 0%nat (advance c off)) as H.
  rewrite Nat.mul_0_r, advance_0 in H. rewrite H. clear H.
  rewrite advance_advance, Hl.
  replace (off + 1 * (0 + NUM_BITS))%nat with (off + NUM_BITS)%nat by lia.
  f_equal. f_equal.
  rewrite (zipWith_via_map (fun p n => Z.rem (p + n + Q) Q)
             (fun k => noiseOfByte
                (entropy (advance (advance c off) (1 * k))
                         (drawn (advance (advance c off) (1 * k)))))).
  f_equal. unfold tabulate. apply map_ext. intros k.
  unfold drawnNoise. cbn. f_equal. f_equal. lia.
Qed.

Lemma mapM_from_publicOf G : forall l i c,
  (i + length l <= length G)%nat ->
  mapM_from (publicOf G) i l c =
  inr (zipWith (fun g s => Z.rem (g * s) Q) (skipn i G) l, c).
Proof.
  induction l as [|x l IH]; intros i c H.
  - cbn. destruct (skipn i G); reflexivity.
  - cbn [length] in H.
    destruct (nth_error G i) as [g|] eqn:Hg.
    2:{ apply nth_error_None in Hg. lia. }
    pose proof (skipn_nth_error G i g Hg) as Hs.
    rewrite Hs. cbn [mapM_from zipWith].
    unfold publicOf at 1. unfold bind at 1. unfold bind at 1.
    rewrite Hg. cbn [bigint_mul]. unfold ret at 1. unfold bigint_rem.
    rewrite Q_neqb. unfold ret at 1.
    rewrite (bind_ok _ _ _ _ _ (IH (S i) c ltac:(lia))). reflexivity.
Qed.

Lemma mapM_from_sharedOf secrets : forall l i c,
  (i + length l <= length secrets)%nat ->
  mapM_from (sharedOf secrets) i l c =
  inr (zipWith (fun pub s => Z.rem (pub * s) Q) l (skipn i secrets), c).
Proof.
  induction l as [|x l IH]; intros i c H.
  - reflexivity.
  - cbn [length] in H.
    destruct (nth_error secrets i) as [g|] eqn:Hg.
    2:{ apply nth_error_None in Hg. lia. }
    rewrite (skipn_nth_error secrets i g Hg). cbn [mapM_from zipWith].
    unfold sharedOf at 1. unfold bind at 1. unfold bind at 1.
    rewrite Hg. cbn [bigint_mul]. unfold ret at 1. unfold bigint_rem.
    rewrite Q_neqb. unfold ret at 1.
    rewrite (bind_ok _ _ _ _ _ (IH (S i) c ltac:(lia))). reflexivity.
Qed.

Lemma mapM_publicOf G l c :
  (length l <= length G)%nat ->
  mapM (publicOf G) l c = inr (zipWith (fun g s => Z.rem (g * s) Q) G l, c).
Proof. intros H. unfold mapM. now rewrite mapM_from_publicOf. Qed.

Lemma mapM_sharedOf secrets l c :
  (length l <= length secrets)%nat ->
  mapM (sharedOf secrets) l c =
  inr (zipWith (fun pub s => Z.rem (pub * s) Q) l secrets, c).
Proof. intros H. unfold mapM. now rewrite mapM_from_sharedOf. Qed.

Lemma Q_neq : Q <> 0.
Proof. pose proof Q_pos. lia. Qed.

Lemma SECRET_MAX_neq : SECRET_MAX <> 0.
Proof. rewrite SECRET_MAX_value. lia. Qed.

Lemma Q_in_quota : (N.of_nat (byteCount Q) <= QUOTA)%N.
Proof. rewrite byteCount_Q. cbv. discriminate. Qed.

Lemma SECRET_MAX_in_quota : (N.of_nat (byteCount SECRET_MAX) <= QUOTA)%N.
Proof. rewrite byteCount_SECRET_MAX. cbv. discriminate. Qed.

(** The script never throws, reads [TOTAL] bytes, and its run is the one
    [described]. *)
Lemma script_described c : script c = inr (described c, advance c TOTAL).
Proof.
  assert (H : script (advance c OFF_G) = inr (described c, advance c TOTAL)).
  2:{ unfold OFF_G in H. now rewrite advance_0 in H. }
  unfold script, described.
  set (G := tabulate (drawnInt Q OFF_G c) NUM_BITS).
  set (aS := tabulate (drawnInt SECRET_MAX OFF_AS c) NUM_BITS).
  set (bS := tabulate (drawnInt SECRET_MAX OFF_BS c) NUM_BITS).
  set (aP := zipWith (fun g s => Z.rem (g * s) Q) G aS).
  set (bP := zipWith (fun g s => Z.rem (g * s) Q) G bS).
  set (aN := zipWith (fun p n => Z.rem (p + n + Q) Q) aP _).
  set (bN := zipWith (fun p n => Z.rem (p + n + Q) Q) bP _).
  assert (HG : length G = NUM_BITS) by apply tabulate_length.
  assert (HaS : length aS = NUM_BITS) by apply tabulate_length.
  assert (HbS : length bS = NUM_BITS) by apply tabulate_length.
  assert (HaP : length aP = NUM_BITS).
  { unfold aP. rewrite zipWith_length. lia. }
  assert (HbP : length bP = NUM_BITS).
  { unfold bP. rewrite zipWith_length. lia. }
  assert (HaN : length aN = NUM_BITS).
  { unfold aN. rewrite zipWith_length, tabulate_length. lia. }
  assert (HbN : length bN = NUM_BITS).
  { unfold bN. rewrite zipWith_length, tabulate_length. lia. }
  rewrite (bind_ok _ _ _ _ _ (mapM_randomBigInt Q OFF_G c Q_neq Q_in_quota)).
  rewrite byteCount_Q. change (OFF_G + 32 * NUM_BITS)%nat with OFF_AS.
  rewrite (bind_ok _ _ _ _ _ (mapM_randomBigInt SECRET_MAX OFF_AS c SECRET_MAX_neq SECRET_MAX_in_quota)).
  rewrite byteCount_SECRET_MAX. change (OFF_AS + 6 * NUM_BITS)%nat with OFF_AN.
  fold G aS.
  rewrite (bind_ok _ _ _ _ _ (mapM_publicOf G aS _ ltac:(lia))). fold aP.
  rewrite (bind_ok _ _ _ _ _ (mapM_addNoise OFF_AN c aP HaP)).
  change (OFF_AN + NUM_BITS)%nat with OFF_BS.
  rewrite (bind_ok _ _ _ _ _ (mapM_randomBigInt SECRET_MAX OFF_BS c SECRET_MAX_neq SECRET_MAX_in_quota)).
  rewrite byteCount_SECRET_MAX. change (OFF_BS + 6 * NUM_BITS)%nat with OFF_BN.
  fold bS.
  rewrite (bind_ok _ _ _ _ _ (mapM_publicOf G bS _ ltac:(lia))). fold bP.
  rewrite (bind_ok _ _ _ _ _ (mapM_addNoise OFF_BN c bP HbP)).
  change (OFF_BN + NUM_BITS)%nat with TOTAL.
  change (zipWith (fun p n => Z.rem (p + n + Q) Q) aP (tabulate (drawnNoise OFF_AN c) NUM_BITS))
    with aN.
  change (zipWith (fun p n => Z.rem (p + n + Q) Q) bP (tabulate (drawnNoise OFF_BN c) NUM_BITS))
    with bN.
  rewrite (bind_ok _ _ _ _ _ (mapM_sharedOf aS bN _ ltac:(lia))).
  rewrite (bind_ok _ _ _ _ _ (mapM_sharedOf bS aN _ ltac:(lia))).
  reflexivity.
Qed.

Lemma outcome_described c : outcome c = inr (described c).
Proof. unfold outcome. now rewrite script_described. Qed.

Lemma theRun_described c : theRun c = described c.
Proof. unfold theRun. now rewrite outcome_described. Qed.

(** The script returns for every generator. *)
Lemma script_returns c : script c = inr (theRun c, advance c TOTAL).
Proof. rewrite theRun_described. apply script_described. Qed.

Lemma outcome_returns c : outcome c = inr (theRun c).
Proof. rewrite theRun_described. apply outcome_described. Qed.

(** ** Ranges of the drawn values *)

Lemma byteval_range b : 0 <= byteval b < 256.
Proof.
  destruct b; vm_compute; split; congruence.
Qed.

Lemma accumulate_from bs : forall acc,
  fold_left (fun result b => Z.shiftl result 8 + byteval b) bs acc =
  acc * 256 ^ Z.of_nat (length bs) + accumulate bs.
Proof.
  unfold accumulate. induction bs as [|b bs IH]; intros acc.
  - cbn. lia.
  - cbn [fold_left length]. rewrite IH. rewrite (IH (Z.shiftl 0 8 + byteval b)).
    rewrite !Z.shiftl_mul_pow2 by lia.
    rewrite Nat2Z.inj_succ, Z.pow_succ_r by lia.
    change (2 ^ 8) with 256. ring.
Qed.

Lemma accumulate_cons b bs :
  accumulate (b :: bs) = byteval b * 256 ^ Z.of_nat (length bs) + accumulate bs.
Proof.
  unfold accumulate at 1. cbn [fold_left]. rewrite accumulate_from.
  rewrite Z.shiftl_mul_pow2 by lia. ring.
Qed.

Lemma accumulate_range bs : 0 <= accumulate bs < 256 ^ Z.of_nat (length bs).
Proof.
  induction bs as [|b bs IH].
  - cbn. lia.
  - rewrite accumulate_cons. cbn [length].
    rewrite Nat2Z.inj_succ, Z.pow_succ_r by lia.
    pose proof (byteval_range b). nia.
Qed.

Lemma drawBigInt_mod max c :
  0 < max -> drawBigInt max c = accumulate (peek c (byteCount max)) mod max.
Proof.
  intros H. unfold drawBigInt.
  apply Z.rem_mod_nonneg; [apply accumulate_range | exact H].
Qed.

Lemma drawBigInt_range max c : 0 < max -> 0 <= drawBigInt max c < max.
Proof.
  intros H. rewrite drawBigInt_mod by exact H. now apply Z.mod_pos_bound.
Qed.

Lemma noiseOfByte_cases b :
  noiseOfByte b = -1 \/ noiseOfByte b = 0 \/ noiseOfByte b = 1.
Proof.
  unfold noiseOfByte. pose proof (byteval_range b) as Hb.
  rewrite Z.rem_mod_nonneg by lia.
  pose proof (Z.mod_pos_bound (byteval b) 3 ltac:(lia)). lia.
Qed.

Lemma rem_Q_mod x : 0 <= x -> Z.rem x Q = x mod Q.
Proof. intros H. apply Z.rem_mod_nonneg; [exact H | apply Q_pos]. Qed.

Lemma mod_Q_range x : 0 <= x mod Q < Q.
Proof. apply Z.mod_pos_bound, Q_pos. Qed.

(** ** One dimension of a run *)

Ltac lengths :=
  repeat rewrite ?zipWith_length, ?tabulate_length, ?length_map; lia.

Section Dimension.

Variable c : Crypto.
Variable i : nat.
Hypothesis Hi : (i < NUM_BITS)%nat.

Lemma G_ARRAY_nth : nth i (G_ARRAY (theRun c)) 0 = drawnInt Q OFF_G c i.
Proof.
  rewrite theRun_described. unfold described. cbn [G_ARRAY].
  now apply tabulate_nth.
Qed.

Lemma aliceSecrets_nth :
  nth i (aliceSecrets (theRun c)) 0 = drawnInt SECRET_MAX OFF_AS c i.
Proof.
  rewrite theRun_described. unfold described. cbn [aliceSecrets].
  now apply tabulate_nth.
Qed.

Lemma bobSecrets_nth :
  nth i (bobSecrets (theRun c)) 0 = drawnInt SECRET_MAX OFF_BS c i.
Proof.
  rewrite theRun_described. unfold described. cbn [bobSecrets].
  now apply tabulate_nth.
Qed.

Lemma G_ARRAY_range : 0 <= nth i (G_ARRAY (theRun c)) 0 < Q.
Proof. rewrite G_ARRAY_nth. apply drawBigInt_range, Q_pos. Qed.

Lemma aliceSecrets_range : 0 <= nth i (aliceSecrets (theRun c)) 0 < SECRET_MAX.
Proof.
  rewrite aliceSecrets_nth. apply drawBigInt_range.
  rewrite SECRET_MAX_value. lia.
Qed.

Lemma bobSecrets_range : 0 <= nth i (bobSecrets (theRun c)) 0 < SECRET_MAX.
Proof.
  rewrite bobSecrets_nth. apply drawBigInt_range.
  rewrite SECRET_MAX_value. lia.
Qed.

Lemma alicePublics_nth :
  nth i (alicePublics (theRun c)) 0 =
  (nth i (G_ARRAY (theRun c)) 0 * nth i (aliceSecrets (theRun c)) 0) mod Q.
Proof.
  pose proof G_ARRAY_range as HG. pose proof aliceSecrets_range as HS.
  rewrite theRun_described in *. unfold described in *.
  cbn [alicePublics G_ARRAY aliceSecrets] in *.
  rewrite (zipWith_nth _ _ _ _ 0 0 0) by lengths.
  apply rem_Q_mod. nia.
Qed.

Lemma bobPublics_nth :
  nth i (bobPublics (theRun c)) 0 =
  (nth i (G_ARRAY (theRun c)) 0 * nth i (bobSecrets (theRun c)) 0) mod Q.
Proof.
  pose proof G_ARRAY_range as HG. pose proof bobSecrets_range as HS.
  rewrite theRun_described in *. unfold described in *.
  cbn [bobPublics G_ARRAY bobSecrets] in *.
  rewrite (zipWith_nth _ _ _ _ 0 0 0) by lengths.
  apply rem_Q_mod. nia.
Qed.

Lemma aliceNoise_cases :
  aliceNoise c i = -1 \/ aliceNoise c i = 0 \/ aliceNoise c i = 1.
Proof. apply noiseOfByte_cases. Qed.

Lemma bobNoise_cases :
  bobNoise c i = -1 \/ bobNoise c i = 0 \/ bobNoise c i = 1.
Proof. apply noiseOfByte_cases. Qed.

Lemma alicePublicsNoisy_nth :
  nth i (alicePublicsNoisy (theRun c)) 0 =
  (nth i (alicePublics (theRun c)) 0 + aliceNoise c i + Q) mod Q.
Proof.
  pose proof alicePublics_nth as HP.
  pose proof (mod_Q_range (nth i (G_ARRAY (theRun c)) 0 *
                           nth i (aliceSecrets (theRun c)) 0)) as HR.
  rewrite <- HP in HR. clear HP.
  pose proof aliceNoise_cases as HN.
  rewrite theRun_described in *. unfold described in *.
  cbn [alicePublicsNoisy alicePublics] in *.
  rewrite (zipWith_nth _ _ _ _ 0 0 0) by lengths.
  rewrite tabulate_nth by exact Hi.
  apply rem_Q_mod. lia.
Qed.

Lemma bobPublicsNoisy_nth :
  nth i (bobPublicsNoisy (theRun c)) 0 =
  (nth i (bobPublics (theRun c)) 0 + bobNoise c i + Q) mod Q.
Proof.
  pose proof bobPublics_nth as HP.
  pose proof (mod_Q_range (nth i (G_ARRAY (theRun c)) 0 *
                           nth i (bobSecrets (theRun c)) 0)) as HR.
  rewrite <- HP in HR. clear HP.
  pose proof bobNoise_cases as HN.
  rewrite theRun_described in *. unfold described in *.
  cbn [bobPublicsNoisy bobPublics] in *.
  rewrite (zipWith_nth _ _ _ _ 0 0 0) by lengths.
  rewrite tabulate_nth by exact Hi.
  apply rem_Q_mod. lia.
Qed.

Lemma sharedAlice_nth :
  nth i (sharedAlice (theRun c)) 0 =
  (nth i (bobPublicsNoisy (theRun c)) 0 * nth i (aliceSecrets (theRun c)) 0) mod Q.
Proof.
  pose proof bobPublicsNoisy_nth as HP.
  pose proof (mod_Q_range (nth i (bobPublics (theRun c)) 0 + bobNoise c i + Q)) as HR.
  rewrite <- HP in HR. clear HP.
  pose proof aliceSecrets_range as HS.
  rewrite theRun_described in *. unfold described in *.
  cbn [sharedAlice bobPublicsNoisy aliceSecrets] in *.
  rewrite (zipWith_nth _ _ _ _ 0 0 0) by lengths.
  apply rem_Q_mod. nia.
Qed.

Lemma sharedBob_nth :
  nth i (sharedBob (theRun c)) 0 =
  (nth i (alicePublicsNoisy (theRun c)) 0 * nth i (bobSecrets (theRun c)) 0) mod Q.
Proof.
  pose proof alicePublicsNoisy_nth as HP.
  pose proof (mod_Q_range (nth i (alicePublics (theRun c)) 0 + aliceNoise c i + Q)) as HR.
  rewrite <- HP in HR. clear HP.
  pose proof bobSecrets_range as HS.
  rewrite theRun_described in *. unfold described in *.
  cbn [sharedBob alicePublicsNoisy bobSecrets] in *.
  rewrite (zipWith_nth _ _ _ _ 0 0 0) by lengths.
  apply rem_Q_mod. nia.
Qed.

Lemma keyAlice_nth :
  nth i (keyAlice (theRun c)) 0 = extractBit (nth i (sharedAlice (theRun c)) 0).
Proof.
  rewrite theRun_described. unfold described. cbn [keyAlice sharedAlice].
  change 0 with (extractBit 0) at 1. apply map_nth.
Qed.

Lemma keyBob_nth :
  nth i (keyBob (theRun c)) 0 = extractBit (nth i (sharedBob (theRun c)) 0).
Proof.
  rewrite theRun_described. unfold described. cbn [keyBob sharedBob].
  change 0 with (extractBit 0) at 1. apply map_nth.
Qed.

End Dimension.

Lemma run_lengths c :
  let r := theRun c in
  length (G_ARRAY r) = NUM_BITS /\
  length (aliceSecrets r) = NUM_BITS /\ length (bobSecrets r) = NUM_BITS /\
  length (alicePublics r) = NUM_BITS /\ length (bobPublics r) = NUM_BITS /\
  length (alicePublicsNoisy r) = NUM_BITS /\ length (bobPublicsNoisy r) = NUM_BITS /\
  length (sharedAlice r) = NUM_BITS /\ length (sharedBob r) = NUM_BITS /\
  length (keyAlice r) = NUM_BITS /\ length (keyBob r) = NUM_BITS.
Proof.
  cbv zeta. rewrite theRun_described. unfold described.
  cbn [G_ARRAY aliceSecrets bobSecrets alicePublics bobPublics alicePublicsNoisy
       bobPublicsNoisy sharedAlice sharedBob keyAlice keyBob].
  repeat split; lengths.
Qed.

Lemma Forall_of_nth (P : Z -> Prop) l n :
  length l = n -> (forall i, (i < n)%nat -> P (nth i l 0)) -> Forall P l.
Proof.
  intros Hl H. apply Forall_forall. intros x Hx.
  destruct (In_nth l x 0 Hx) as (i & Hi & <-). apply H. lia.
Qed.

(** ** Public values, noise and reconciliation *)

(** C2. For every dimension [i], each party's public value is
    [basis[i] * secret[i] mod Q] and each party's shared value is
    [otherPartyNoisyPublics[i] * secret[i] mod Q]: the value of dimension [i]
    is a function of the entries of dimension [i] only.  The script returns
    for every generator, and all these sequences have one entry per
    dimension. *)
Theorem public_and_shared_elementwise (c : Crypto) (i : nat) :
  (i < NUM_BITS)%nat ->
  let r := theRun c in
  outcome c = inr r /\
  nth i (alicePublics r) 0 = (nth i (G_ARRAY r) 0 * nth i (aliceSecrets r) 0) mod Q /\
  nth i (bobPublics r) 0 = (nth i (G_ARRAY r) 0 * nth i (bobSecrets r) 0) mod Q /\
  nth i (sharedAlice r) 0 =
    (nth i (bobPublicsNoisy r) 0 * nth i (aliceSecrets r) 0) mod Q /\
  nth i (sharedBob r) 0 =
    (nth i (alicePublicsNoisy r) 0 * nth i (bobSecrets r) 0) mod Q /\
  length (alicePublics r) = NUM_BITS /\ length (bobPublics r) = NUM_BITS /\
  length (sharedAlice r) = NUM_BITS /\ length (sharedBob r) = NUM_BITS.
Proof.
  intros Hi r. pose proof (run_lengths c) as L. cbv zeta in L. fold r in L.
  split; [apply outcome_returns|].
  split; [now apply alicePublics_nth|].
  split; [now apply bobPublics_nth|].
  split; [now apply sharedAlice_nth|].
  split; [now apply sharedBob_nth|].
  tauto.
Qed.

Lemma public_and_shared_elementwise_witness :
  (3 < NUM_BITS)%nat /\
  nth 3 (alicePublics (theRun (constant x2a))) 0 =
  (nth 3 (G_ARRAY (theRun (constant x2a))) 0 *
   nth 3 (aliceSecrets (theRun (constant x2a))) 0) mod Q.
Proof.
  assert (H : (3 < NUM_BITS)%nat) by (unfold NUM_BITS; lia).
  split; [exact H|].
  exact (proj1 (proj2 (public_and_shared_elementwise (constant x2a) 3 H))).
Defined.

(** C3. For every value in [[0, Q)] and every noise draw [n] in
    {-1, 0, +1}, some byte gives the noise [n], and at every generator whose
    next byte gives it, [addNoise] returns exactly [(value + n + Q) mod Q],
    which is non-negative and below [Q]; it reads one byte. *)
Theorem addNoise_perturbs (value n : Z) :
  0 <= value < Q ->
  n = -1 \/ n = 0 \/ n = 1 ->
  (exists b, noiseOfByte b = n) /\
  forall c, noiseOfByte (entropy c (drawn c)) = n ->
    addNoise value c = inr ((value + n + Q) mod Q, advance c 1) /\
    0 <= (value + n + Q) mod Q < Q.
Proof.
  intros Hv Hn. split.
  - destruct Hn as [-> | [-> | ->]];
      [exists x00 | exists x01 | exists x02]; reflexivity.
  - intros c Hc. split; [|apply mod_Q_range].
    rewrite addNoise_eq, Hc.
    rewrite rem_Q_mod by lia. reflexivity.
Qed.

Lemma addNoise_perturbs_witness :
  addNoise 0 (constant x00) = inr ((0 + -1 + Q) mod Q, advance (constant x00) 1) /\
  0 <= (0 + -1 + Q) mod Q < Q.
Proof.
  assert (H0 : 0 <= 0 < Q) by (split; [lia | reflexivity]).
  exact (proj2 (addNoise_perturbs 0 (-1) H0 (or_introl eq_refl))
               (constant x00) eq_refl).
Defined.

(** C4. For a shared value [v] in [[0, Q)], where [Q] has 256 binary
    digits, the extracted bit [(v >> 255) & 1] is bit 255 of [v], the most
    significant bit of a 256-bit number: it is 1 exactly when
    [v >= 2^255], and 0 otherwise. *)
Theorem extractBit_msb (v : Z) :
  0 <= v < Q ->
  toString2_length Q = 256%nat /\
  extractBit v = Z.b2z (Z.testbit v 255) /\
  (extractBit v = 1 <-> 2 ^ 255 <= v) /\
  (extractBit v = 0 <-> v < 2 ^ 255).
Proof.
  intros Hv. rewrite Q_value in Hv.
  split; [reflexivity|].
  assert (E : extractBit v = (v / 2 ^ 255) mod 2).
  { unfold extractBit. rewrite Z.shiftr_div_pow2 by lia.
    change 1 with (Z.ones 1). rewrite Z.land_ones by lia. reflexivity. }
  assert (D : v / 2 ^ 255 = 0 \/ v / 2 ^ 255 = 1).
  { assert (0 <= v / 2 ^ 255 < 2); [|lia].
    split; [apply Z.div_pos; lia|].
    apply Z.div_lt_upper_bound; lia. }
  split; [rewrite E; symmetry; apply Z.testbit_spec'; lia|].
  rewrite E.
  assert (L : v / 2 ^ 255 = 0 <-> v < 2 ^ 255).
  { split; intros H.
    - apply Z.div_small_iff in H; lia.
    - apply Z.div_small; lia. }
  destruct D as [D | D]; rewrite D; cbn; lia.
Qed.

Lemma extractBit_msb_witness :
  0 <= 2 ^ 255 < Q /\ extractBit (2 ^ 255) = Z.b2z (Z.testbit (2 ^ 255) 255) /\
  (extractBit (2 ^ 255) = 1 <-> 2 ^ 255 <= 2 ^ 255).
Proof.
  assert (H : 0 <= 2 ^ 255 < Q) by (split; [lia | reflexivity]).
  split; [exact H|].
  split.
  - exact (proj1 (proj2 (extractBit_msb (2 ^ 255) H))).
  - exact (proj1 (proj2 (proj2 (extractBit_msb (2 ^ 255) H)))).
Defined.

(** C10. Every public value, noisy public value and shared value of both
    parties lies in the residue range [[0, Q)], for every run.  Perturbing 0
    with noise -1 wraps to [Q - 1]: in the run of the generator that only
    produces zero bytes, Bob's public value of dimension 0 is 0, with most
    significant bit 0, and its noisy public value is [Q - 1], with most
    significant bit 1. *)
Theorem values_stay_in_residue_range (c : Crypto) :
  let r := theRun c in
  outcome c = inr r /\
  (Forall inQ (alicePublics r) /\ Forall inQ (bobPublics r) /\
   Forall inQ (alicePublicsNoisy r) /\ Forall inQ (bobPublicsNoisy r) /\
   Forall inQ (sharedAlice r) /\ Forall inQ (sharedBob r)) /\
  noiseOfByte x00 = -1 /\
  addNoise 0 (constant x00) = inr (Q - 1, advance (constant x00) 1) /\
  nth 0 (bobPublics (theRun (constant x00))) 0 = 0 /\
  nth 0 (bobPublicsNoisy (theRun (constant x00))) 0 = Q - 1 /\
  extractBit 0 = 0 /\ extractBit (Q - 1) = 1.
Proof.
  intros r. pose proof (run_lengths c) as L. cbv zeta in L. fold r in L.
  split; [apply outcome_returns|].
  split.
  - repeat split.
    + apply (Forall_of_nth _ _ NUM_BITS); [tauto|]. intros i Hi.
      unfold r. rewrite alicePublics_nth by exact Hi. apply mod_Q_range.
    + apply (Forall_of_nth _ _ NUM_BITS); [tauto|]. intros i Hi.
      unfold r. rewrite bobPublics_nth by exact Hi. apply mod_Q_range.
    + apply (Forall_of_nth _ _ NUM_BITS); [tauto|]. intros i Hi.
      unfold r. rewrite alicePublicsNoisy_nth by exact Hi. apply mod_Q_range.
    + apply (Forall_of_nth _ _ NUM_BITS); [tauto|]. intros i Hi.
      unfold r. rewrite bobPublicsNoisy_nth by exact Hi. apply mod_Q_range.
    + apply (Forall_of_nth _ _ NUM_BITS); [tauto|]. intros i Hi.
      unfold r. rewrite sharedAlice_nth by exact Hi. apply mod_Q_range.
    + apply (Forall_of_nth _ _ NUM_BITS); [tauto|]. intros i Hi.
      unfold r. rewrite sharedBob_nth by exact Hi. apply mod_Q_range.
  - repeat split; vm_compute; reflexivity.
Qed.

(** C9. Key derivation has no coupling between dimensions: two runs that
    agree on dimension [i]'s basis entry, on both parties' secrets of
    dimension [i] and on both parties' noise of dimension [i] derive the same
    key bit [i] for Alice and the same key bit [i] for Bob, whatever the
    generators produce for the other dimensions.  ([alicePublicsNoisy_nth]
    and [bobPublicsNoisy_nth] show that [aliceNoise] and [bobNoise] are the
    noise the script adds in dimension [i].) *)
Theorem key_bit_noninterference (c1 c2 : Crypto) (i : nat) :
  (i < NUM_BITS)%nat ->
  nth i (G_ARRAY (theRun c1)) 0 = nth i (G_ARRAY (theRun c2)) 0 ->
  nth i (aliceSecrets (theRun c1)) 0 = nth i (aliceSecrets (theRun c2)) 0 ->
  nth i (bobSecrets (theRun c1)) 0 = nth i (bobSecrets (theRun c2)) 0 ->
  aliceNoise c1 i = aliceNoise c2 i ->
  bobNoise c1 i = bobNoise c2 i ->
  outcome c1 = inr (theRun c1) /\ outcome c2 = inr (theRun c2) /\
  nth i (keyAlice (theRun c1)) 0 = nth i (keyAlice (theRun c2)) 0 /\
  nth i (keyBob (theRun c1)) 0 = nth i (keyBob (theRun c2)) 0.
Proof.
  intros Hi HG HA HB HnA HnB.
  split; [apply outcome_returns|]. split; [apply outcome_returns|].
  rewrite !keyAlice_nth, !keyBob_nth.
  rewrite !sharedAlice_nth, !sharedBob_nth by exact Hi.
  rewrite !alicePublicsNoisy_nth, !bobPublicsNoisy_nth by exact Hi.
  rewrite !alicePublics_nth, !bobPublics_nth by exact Hi.
  rewrite HG, HA, HB, HnA, HnB. split; reflexivity.
Qed.

Lemma key_bit_noninterference_witness :
  nth 1 (G_ARRAY (theRun (constant x00))) 0 <> nth 1 (G_ARRAY (theRun oneOff)) 0 /\
  nth 0 (keyAlice (theRun (constant x00))) 0 = nth 0 (keyAlice (theRun oneOff)) 0 /\
  nth 0 (keyBob (theRun (constant x00))) 0 = nth 0 (keyBob (theRun oneOff)) 0.
Proof.
  split; [vm_compute; discriminate|].
  assert (Hi : (0 < NUM_BITS)%nat) by (unfold NUM_BITS; lia).
  exact (proj2 (proj2 (key_bit_noninterference (constant x00) oneOff 0 Hi
           ltac:(vm_compute; reflexivity) ltac:(vm_compute; reflexivity)
           ltac:(vm_compute; reflexivity) ltac:(vm_compute; reflexivity)
           ltac:(vm_compute; reflexivity)))).
Defined.

(** ** The distribution of the draws *)

Lemma allBytes_values : map byteval allBytes = zrange 256.
Proof. vm_compute. reflexivity. Qed.

Lemma allBytes_complete b : In b allBytes.
Proof.
  assert (H : existsb (Byte.eqb b) allBytes = true)
    by (destruct b; vm_compute; reflexivity).
  apply existsb_exists in H as (x & Hx & E).
  apply Byte.byte_dec_bl in E. now subst.
Qed.

Lemma allBytes_NoDup : NoDup allBytes.
Proof.
  apply (NoDup_map_inv byteval). rewrite allBytes_values.
  unfold zrange. apply Injective_map_NoDup.
  - intros x y. apply Nat2Z.inj.
  - apply seq_NoDup.
Qed.

Lemma allArrays_length n : forall a, In a (allArrays n) -> length a = n.
Proof.
  induction n as [|n IH]; intros a H; cbn [allArrays] in H.
  - destruct H as [<- | []]. reflexivity.
  - apply in_flat_map in H as (b & _ & H).
    apply in_map_iff in H as (a' & <- & H). cbn. f_equal. now apply IH.
Qed.

Lemma allArrays_complete n : forall a, length a = n -> In a (allArrays n).
Proof.
  induction n as [|n IH]; intros [|b a] H; cbn in H; try discriminate.
  - now left.
  - cbn [allArrays]. apply in_flat_map. exists b. split.
    + apply allBytes_complete.
    + apply in_map. apply IH. lia.
Qed.

Lemma peek_length c n : length (peek c n) = n.
Proof. unfold peek. now rewrite length_map, length_seq. Qed.

Lemma zrange_S n : zrange (S n) = zrange n ++ [Z.of_nat n].
Proof. unfold zrange. now rewrite seq_S, map_app. Qed.

Lemma zrange_shift a n :
  map (fun x => Z.of_nat a + x) (zrange n) = map Z.of_nat (seq a n).
Proof.
  induction n as [|n IH].
  - reflexivity.
  - rewrite zrange_S, seq_S, !map_app, IH. cbn. do 2 f_equal. lia.
Qed.

Lemma zrange_app a n : zrange (a + n) = zrange a ++ map Z.of_nat (seq a n).
Proof. unfold zrange. now rewrite seq_app, map_app. Qed.

Lemma zrange_flat k : forall d,
  flat_map (fun z => map (fun x => z * Z.of_nat k + x) (zrange k)) (zrange d) =
  zrange (d * k).
Proof.
  induction d as [|d IH].
  - reflexivity.
  - rewrite zrange_S, flat_map_app, IH. cbn [flat_map]. rewrite app_nil_r.
    replace (S d * k)%nat with (d * k + k)%nat by lia.
    rewrite zrange_app. f_equal.
    rewrite <- zrange_shift. apply map_ext. intros x. lia.
Qed.

Lemma map_flat_map {A B C : Type} (f : B -> C) (g : A -> list B) l :
  map f (flat_map g l) = flat_map (fun x => map f (g x)) l.
Proof. induction l as [|x l IH]; cbn; [|rewrite map_app, IH]; reflexivity. Qed.

Lemma flat_map_map {A B C : Type} (f : A -> B) (g : B -> list C) l :
  flat_map g (map f l) = flat_map (fun x => g (f x)) l.
Proof. induction l as [|x l IH]; cbn; [|rewrite IH]; reflexivity. Qed.

(** The loop of [randomBigInt] maps the arrays of [n] bytes one-to-one onto
    the integers below [256^n]. *)
Lemma accumulate_allArrays n : map accumulate (allArrays n) = zrange (256 ^ n).
Proof.
  induction n as [|n IH].
  - reflexivity.
  - cbn [allArrays]. rewrite map_flat_map.
    rewrite (flat_map_ext _
               (fun b => map (fun x => byteval b * Z.of_nat (256 ^ n) + x)
                             (zrange (256 ^ n)))).
    + rewrite <- (flat_map_map byteval
                    (fun z => map (fun x => z * Z.of_nat (256 ^ n) + x)
                                  (zrange (256 ^ n)))).
      rewrite allBytes_values, zrange_flat. reflexivity.
    + intros b. rewrite map_map, <- IH, map_map.
      apply map_ext_in. intros a Ha.
      rewrite accumulate_cons, (allArrays_length n a Ha).
      rewrite Nat2Z.inj_pow. reflexivity.
Qed.

Lemma allArrays_count n : length (allArrays n) = (256 ^ n)%nat.
Proof.
  rewrite <- (length_map accumulate), accumulate_allArrays.
  unfold zrange. now rewrite length_map, length_seq.
Qed.

(** Among the integers below [n], those congruent to [v] modulo [m]. *)
Lemma count_mod m v : 0 <= v < m -> forall n,
  Z.of_nat (length (filter (fun x => x mod m =? v) (zrange n))) =
  Z.of_nat n / m + (if v <? Z.of_nat n mod m then 1 else 0).
Proof.
  intros Hv. induction n as [|n IH].
  - change (Z.of_nat 0) with 0. rewrite Zdiv_0_l, Zmod_0_l.
    destruct (v <? 0) eqn:E; cbn; lia.
  - rewrite zrange_S, filter_app, length_app, Nat2Z.inj_add, IH. clear IH.
    cbn [filter]. rewrite Nat2Z.inj_succ.
    set (z := Z.of_nat n). assert (Hz : 0 <= z) by (unfold z; lia).
    pose proof (Z.div_mod z m ltac:(lia)) as D.
    pose proof (Z.mod_pos_bound z m ltac:(lia)) as B.
    assert (Hq : 0 <= z / m) by (apply Z.div_pos; lia).
    destruct (Z.eq_dec (z mod m + 1) m) as [W | W].
    + assert (Q1 : Z.succ z / m = z / m + 1).
      { symmetry. apply (Z.div_unique_pos _ _ _ 0); lia. }
      assert (R1 : Z.succ z mod m = 0).
      { symmetry. apply (Z.mod_unique_pos _ _ (z / m + 1)); lia. }
      rewrite Q1, R1.
      destruct (z mod m =? v) eqn:E1; destruct (v <? z mod m) eqn:E2;
        destruct (v <? 0) eqn:E3; cbn [length]; lia.
    + assert (Q1 : Z.succ z / m = z / m).
      { symmetry. apply (Z.div_unique_pos _ _ _ (z mod m + 1)); lia. }
      assert (R1 : Z.succ z mod m = z mod m + 1).
      { symmetry. apply (Z.mod_unique_pos _ _ (z / m)); lia. }
      rewrite Q1, R1.
      destruct (z mod m =? v) eqn:E1; destruct (v <? z mod m) eqn:E2;
        destruct (v <? z mod m + 1) eqn:E3; cbn [length]; lia.
Qed.

Lemma filter_map_length {A B : Type} (p : B -> bool) (g : A -> B) l :
  length (filter (fun a => p (g a)) l) = length (filter p (map g l)).
Proof. now rewrite filter_map_swap, length_map. Qed.

Lemma preimageCount_eq max v :
  1 <= max -> 0 <= v < max ->
  Z.of_nat (preimageCount max v) =
  256 ^ Z.of_nat (byteCount max) / max +
  (if v <? 256 ^ Z.of_nat (byteCount max) mod max then 1 else 0).
Proof.
  intros Hm Hv. unfold preimageCount.
  rewrite (filter_ext _ (fun array => accumulate array mod max =? v)).
  2:{ intros a. rewrite Z.rem_mod_nonneg; [reflexivity | apply accumulate_range | lia]. }
  rewrite (filter_map_length (fun x => x mod max =? v) accumulate).
  rewrite accumulate_allArrays, (count_mod max v Hv).
  rewrite Nat2Z.inj_pow. reflexivity.
Qed.

Lemma byteCount_in_quota_iff max :
  (N.of_nat (byteCount max) <= QUOTA)%N <->
  (N.of_nat (toString2_length max) <= 8 * QUOTA)%N.
Proof.
  unfold byteCount, ceil8.
  set (s := toString2_length max).
  generalize QUOTA. intros q.
  pose proof (Nat.div_mod_eq (s + 7) 8) as D.
  pose proof (Nat.mod_upper_bound (s + 7) 8 ltac:(lia)) as U.
  lia.
Qed.

(** C5, as stated, fails: for the bound 3, [randomBigInt] reads one byte,
    and of the 256 possible bytes 86 give the value 0 but only 85 give the
    value 1. *)
Lemma randomBigInt_not_uniform :
  1 <= 3 /\ byteCount 3 = 1%nat /\ preimageCount 3 0 = 86%nat /\
  preimageCount 3 1 = 85%nat /\ preimageCount 3 0 <> preimageCount 3 1.
Proof. repeat split; try (vm_compute; congruence). Qed.

(** C5, amended. For every bound [max >= 1] whose [byteCount max] bytes
    are within the quota of [crypto.getRandomValues] (65536 bytes, that is a
    bound of at most 524288 binary digits) and every generator,
    [randomBigInt max] returns the integer read from the next
    [byteCount max] bytes, reduced modulo [max], which lies in [[0, max)];
    for a larger bound it throws a [QuotaExceededError].  Of the
    [N = 256 ^ byteCount max] arrays it can read, each value [v] of
    [[0, max)] is the result for [N / max] arrays, and for one more when
    [v < N mod max]: the counts of two values differ by at most one, and are
    all equal exactly when [max] divides [N]. *)
Theorem randomBigInt_distribution (max : Z) :
  1 <= max ->
  ((N.of_nat (byteCount max) <= QUOTA)%N ->
   forall c,
     randomBigInt max c =
       inr (accumulate (peek c (byteCount max)) mod max, advance c (byteCount max)) /\
     0 <= accumulate (peek c (byteCount max)) mod max < max /\
     In (peek c (byteCount max)) (allArrays (byteCount max))) /\
  ((QUOTA < N.of_nat (byteCount max))%N ->
   forall c, randomBigInt max c = inl QuotaExceededError) /\
  ((N.of_nat (byteCount max) <= QUOTA)%N <->
   (N.of_nat (toString2_length max) <= 8 * QUOTA)%N) /\
  length (allArrays (byteCount max)) = (256 ^ byteCount max)%nat /\
  (forall v, 0 <= v < max ->
     Z.of_nat (preimageCount max v) =
     256 ^ Z.of_nat (byteCount max) / max +
     (if v <? 256 ^ Z.of_nat (byteCount max) mod max then 1 else 0)).
Proof.
  intros Hm. split; [|split; [|split; [|split]]].
  - intros Hq c. split; [|split].
    + rewrite randomBigInt_eq by (lia || exact Hq).
      now rewrite drawBigInt_mod by lia.
    + apply Z.mod_pos_bound. lia.
    + apply allArrays_complete, peek_length.
  - intros Hq c. now apply randomBigInt_quota.
  - apply byteCount_in_quota_iff.
  - apply allArrays_count.
  - intros v Hv. now apply preimageCount_eq.
Qed.

Lemma randomBigInt_distribution_witness :
  1 <= 3 /\
  randomBigInt 3 (constant xff) =
    inr (accumulate (peek (constant xff) (byteCount 3)) mod 3,
         advance (constant xff) (byteCount 3)) /\
  Z.of_nat (preimageCount 3 2) =
  256 ^ Z.of_nat (byteCount 3) / 3 +
  (if 2 <? 256 ^ Z.of_nat (byteCount 3) mod 3 then 1 else 0) /\
  randomBigInt (Z.shiftl 1 524288) (constant xff) = inl QuotaExceededError.
Proof.
  assert (H : 1 <= 3) by lia.
  assert (Hq : (N.of_nat (byteCount 3) <= QUOTA)%N) by (cbv; discriminate).
  assert (H' : 1 <= Z.shiftl 1 524288) by (vm_compute; discriminate).
  assert (Hq' : (QUOTA < N.of_nat (byteCount (Z.shiftl 1 524288)))%N)
    by (vm_compute; reflexivity).
  split; [exact H|]. split; [|split].
  - exact (proj1 (proj1 (randomBigInt_distribution 3 H) Hq (constant xff))).
  - exact (proj2 (proj2 (proj2 (proj2 (randomBigInt_distribution 3 H)))) 2
             ltac:(lia)).
  - exact (proj1 (proj2 (randomBigInt_distribution _ H')) Hq' (constant xff)).
Defined.

(** X4. The secrets are uniform: [SECRET_MAX = 2^40] divides [256^6], and every
    secret is the result for 256 of the arrays of 6 bytes. *)
Lemma secrets_uniform v :
  0 <= v < SECRET_MAX -> preimageCount SECRET_MAX v = 256%nat.
Proof.
  intros Hv. apply Nat2Z.inj. rewrite preimageCount_eq.
  - rewrite byteCount_SECRET_MAX, SECRET_MAX_value.
    change (256 ^ Z.of_nat 6 mod 2 ^ 40) with 0.
    change (256 ^ Z.of_nat 6 / 2 ^ 40) with 256.
    destruct (v <? 0) eqn:E; [lia | reflexivity].
  - rewrite SECRET_MAX_value. lia.
  - exact Hv.
Qed.

(** X5. The bases are not: of the [2^256] arrays of 32 bytes, two give each of
    the values below 189 and one gives each other value below [Q]. *)
Lemma bases_biased v :
  0 <= v < Q -> preimageCount Q v = if v <? 189 then 2%nat else 1%nat.
Proof.
  intros Hv. apply Nat2Z.inj. rewrite preimageCount_eq.
  - rewrite byteCount_Q, Q_value.
    change ((256 ^ Z.of_nat 32) mod (2 ^ 256 - 189)) with 189.
    change (256 ^ Z.of_nat 32 / (2 ^ 256 - 189)) with 1.
    destruct (v <? 189); reflexivity.
  - pose proof Q_pos. lia.
  - exact Hv.
Qed.

(** C6, as stated, fails: of the 256 bytes, 86 give the noise -1 and 85 give
    the noise 0. *)
Lemma noise_not_uniform :
  noiseCount (-1) = 86%nat /\ noiseCount 0 = 85%nat /\
  noiseCount (-1) <> noiseCount 0.
Proof. repeat split; vm_compute; congruence. Qed.

(** C6, amended. The noise of every byte is one of -1, 0, +1, so [addNoise]
    always perturbs by one of them; of the 256 bytes, each of which is
    listed once in [allBytes], 86 give -1, 85 give 0 and 85 give +1. *)
Theorem noise_sample_distribution :
  (forall b, noiseOfByte b = -1 \/ noiseOfByte b = 0 \/ noiseOfByte b = 1) /\
  (forall value c, exists n,
     (n = -1 \/ n = 0 \/ n = 1) /\
     addNoise value c = inr (Z.rem (value + n + Q) Q, advance c 1)) /\
  (forall b, In b allBytes) /\ NoDup allBytes /\ length allBytes = 256%nat /\
  noiseCount (-1) = 86%nat /\ noiseCount 0 = 85%nat /\ noiseCount 1 = 85%nat.
Proof.
  split; [exact noiseOfByte_cases|].
  split.
  { intros value c. exists (noiseOfByte (entropy c (drawn c))).
    split; [apply noiseOfByte_cases | apply addNoise_eq]. }
  split; [exact allBytes_complete|].
  split; [exact allBytes_NoDup|].
  repeat split; vm_compute; reflexivity.
Qed.

(** ** Key assembly *)

Lemma lor_shiftl_bit acc bit :
  0 <= acc -> isBit bit -> Z.lor (Z.shiftl acc 1) bit = 2 * acc + bit.
Proof.
  intros Ha [-> | ->].
  - rewrite Z.lor_0_r, Z.shiftl_mul_pow2 by lia. change (2 ^ 1) with 2. lia.
  - destruct acc as [|p|p]; try lia; reflexivity.
Qed.

Lemma fold_bits_from bs :
  Forall isBit bs -> forall acc, 0 <= acc ->
  fold_left (fun acc bit => Z.lor (Z.shiftl acc 1) bit) bs acc =
  acc * 2 ^ Z.of_nat (length bs) + bitsToBigInt bs.
Proof.
  unfold bitsToBigInt.
  induction 1 as [|b bs Hb Hbs IH]; intros acc Ha.
  - cbn. lia.
  - cbn [fold_left length].
    rewrite (lor_shiftl_bit acc b Ha Hb), (lor_shiftl_bit 0 b ltac:(lia) Hb).
    assert (0 <= b) by (destruct Hb; lia).
    rewrite IH by lia. rewrite (IH (2 * 0 + b)) by lia.
    rewrite Nat2Z.inj_succ, Z.pow_succ_r by lia. ring.
Qed.

Lemma bitsToBigInt_cons b bs :
  Forall isBit (b :: bs) ->
  bitsToBigInt (b :: bs) = b * 2 ^ Z.of_nat (length bs) + bitsToBigInt bs.
Proof.
  intros H. inversion H as [|? ? Hb Hbs]; subst.
  unfold bitsToBigInt at 1. cbn [fold_left].
  rewrite (lor_shiftl_bit 0 b ltac:(lia) Hb).
  rewrite fold_bits_from by (try assumption; destruct Hb; lia). ring.
Qed.

Lemma bitsToBigInt_range bs :
  Forall isBit bs -> 0 <= bitsToBigInt bs < 2 ^ Z.of_nat (length bs).
Proof.
  induction 1 as [|b bs Hb Hbs IH].
  - cbn. lia.
  - rewrite bitsToBigInt_cons by now constructor.
    cbn [length]. rewrite Nat2Z.inj_succ, Z.pow_succ_r by lia.
    destruct Hb as [-> | ->]; lia.
Qed.

Lemma weightedSum_cons b bs :
  weightedSum (b :: bs) = b * 2 ^ Z.of_nat (length bs) + weightedSum bs.
Proof.
  unfold weightedSum. cbn [length seq map fold_right nth].
  replace (S (length bs) - 1 - 0)%nat with (length bs) by lia.
  f_equal. f_equal.
  rewrite <- seq_shift, map_map. apply map_ext. intros i.
  cbn [nth]. do 2 f_equal. lia.
Qed.

(** Bit [n-1-i] of the assembled key is the bit of dimension [i]. *)
Lemma bit_of_key bs :
  Forall isBit bs -> forall i, (i < length bs)%nat ->
  (bitsToBigInt bs / 2 ^ Z.of_nat (length bs - 1 - i)) mod 2 = nth i bs 0.
Proof.
  induction 1 as [|b bs Hb Hbs IH]; intros i Hi; cbn [length] in Hi; [lia|].
  rewrite bitsToBigInt_cons by now constructor.
  pose proof (bitsToBigInt_range bs Hbs) as R.
  destruct i as [|j]; cbn [length nth].
  - replace (S (length bs) - 1 - 0)%nat with (length bs) by lia.
    rewrite Z.div_add_l by lia. rewrite (Z.div_small (bitsToBigInt bs)) by lia.
    destruct Hb as [-> | ->]; reflexivity.
  - replace (S (length bs) - 1 - S j)%nat with (length bs - 1 - j)%nat by lia.
    rewrite <- (IH j) by lia.
    set (e := (length bs - 1 - j)%nat).
    replace (Z.of_nat (length bs)) with (Z.of_nat (S j) + Z.of_nat e) by lia.
    rewrite Z.pow_add_r by lia.
    rewrite Z.mul_assoc, Z.div_add_l by lia.
    rewrite Nat2Z.inj_succ, Z.pow_succ_r by lia.
    replace (b * (2 * 2 ^ Z.of_nat j)) with (b * 2 ^ Z.of_nat j * 2) by ring.
    rewrite Z.add_comm, Z.mod_add by lia. reflexivity.
Qed.

(** C7. For every list of [n] bits, [bitsToBigInt] is the sum over [i] of
    [bits[i] * 2^(n-1-i)]: the key is below [2^n] and its bit [n-1-i] is
    the bit of dimension [i], so the bit of dimension 0 is the most
    significant one. *)
Theorem bitsToBigInt_most_significant_first (bits : list Z) :
  Forall isBit bits ->
  bitsToBigInt bits = weightedSum bits /\
  0 <= bitsToBigInt bits < 2 ^ Z.of_nat (length bits) /\
  forall i, (i < length bits)%nat ->
    Z.b2z (Z.testbit (bitsToBigInt bits) (Z.of_nat (length bits - 1 - i))) =
    nth i bits 0.
Proof.
  intros H. split; [|split].
  - induction H as [|b bs Hb Hbs IH].
    + reflexivity.
    + rewrite bitsToBigInt_cons by now constructor.
      now rewrite weightedSum_cons, IH.
  - now apply bitsToBigInt_range.
  - intros i Hi. rewrite Z.testbit_spec' by lia. now apply bit_of_key.
Qed.

Lemma bitsToBigInt_most_significant_first_witness :
  Forall isBit [1; 0; 1; 1] /\
  bitsToBigInt [1; 0; 1; 1] = weightedSum [1; 0; 1; 1] /\
  Z.b2z (Z.testbit (bitsToBigInt [1; 0; 1; 1]) 3) = 1.
Proof.
  assert (H : Forall isBit [1; 0; 1; 1]).
  { repeat constructor; (now left) || (now right). }
  split; [exact H|].
  split.
  - exact (proj1 (bitsToBigInt_most_significant_first [1; 0; 1; 1] H)).
  - exact (proj2 (proj2 (bitsToBigInt_most_significant_first [1; 0; 1; 1] H))
             0%nat ltac:(cbn; lia)).
Defined.

(** ** The hexadecimal rendering of the key and its decoding *)

Lemma hexToBigInt_toString16 k : 0 <= k -> hexToBigInt (toString16 k) = k.
Proof.
  intros Hk. destruct k as [|p|p]; try lia; [reflexivity|].
  unfold hexToBigInt, toString16. rewrite HexString.Raw.to_N_of_pos. reflexivity.
Qed.

Lemma hexToBigInt_zeros m s :
  hexToBigInt (replicate m "0" ++ s)%string = hexToBigInt s.
Proof.
  unfold hexToBigInt. induction m as [|m IH]; [reflexivity|].
  cbn [replicate String.append]. exact IH.
Qed.

Lemma hexToBigInt_padStart n s : hexToBigInt (padStart n "0" s) = hexToBigInt s.
Proof.
  unfold padStart. destruct (n <=? String.length s)%nat; [reflexivity|].
  apply hexToBigInt_zeros.
Qed.

Lemma length_replicate_append m ch s :
  String.length (replicate m ch ++ s)%string = (m + String.length s)%nat.
Proof. induction m as [|m IH]; cbn; [|rewrite IH]; reflexivity. Qed.

Lemma of_pos_length : forall p rest,
  String.length (HexString.Raw.of_pos p rest) =
  ((Pos.size_nat p + 3) / 4 + String.length rest)%nat.
Proof.
  fix IH 1. intros p rest.
  do 4 try destruct p as [p|p|];
    cbn [HexString.Raw.of_pos Pos.size_nat]; try reflexivity;
    rewrite IH; cbn [String.length];
    replace (S (S (S (S (Pos.size_nat p)))) + 3)%nat
      with (Pos.size_nat p + 3 + 1 * 4)%nat by lia;
    rewrite Nat.div_add by lia; lia.
Qed.

Lemma toString16_length k :
  0 <= k < 2 ^ 256 -> (String.length (toString16 k) <= 64)%nat.
Proof.
  intros Hk. destruct k as [|p|p]; try lia; [cbn; lia|].
  unfold toString16. rewrite of_pos_length. cbn [String.length].
  assert (Pos.size_nat p <= 256)%nat.
  { apply Zpower2_Psize. change (Z.of_nat 256) with 256. lia. }
  rewrite Nat.add_0_r.
  apply Nat.lt_succ_r. apply Nat.Div0.div_lt_upper_bound. lia.
Qed.

Lemma keyToHex_length k :
  0 <= k < 2 ^ 256 -> String.length (keyToHex k) = 64%nat.
Proof.
  intros Hk. pose proof (toString16_length k Hk) as L.
  unfold keyToHex, padStart.
  destruct (64 <=? String.length (toString16 k))%nat eqn:E.
  - apply Nat.leb_le in E. lia.
  - rewrite length_replicate_append. apply Nat.leb_gt in E. lia.
Qed.

Lemma bitsOfKey_bitsToBigInt bits :
  Forall isBit bits -> bitsOfKey (length bits) (bitsToBigInt bits) = bits.
Proof.
  intros H. unfold bitsOfKey.
  apply (nth_ext _ _ 0 0).
  - now rewrite length_map, length_seq.
  - intros i Hi. rewrite length_map, length_seq in Hi.
    rewrite (nth_indep _ 0
               (Z.land (Z.shiftr (bitsToBigInt bits)
                          (Z.of_nat (length bits - 1 - 0))) 1))
      by now rewrite length_map, length_seq.
    rewrite (map_nth (fun i => Z.land (Z.shiftr (bitsToBigInt bits)
                                         (Z.of_nat (length bits - 1 - i))) 1)).
    rewrite seq_nth by exact Hi. cbn [Nat.add].
    rewrite Z.shiftr_div_pow2 by lia.
    change 1 with (Z.ones 1). rewrite Z.land_ones by lia.
    change (2 ^ 1) with 2. now apply bit_of_key.
Qed.

(** C8. For every sequence of 256 bits, assembling the key, rendering it as
    [toString(16).padStart(64, '0')], which has exactly 64 characters,
    reading the digits back as a hexadecimal numeral and re-extracting 256
    bits gives the original sequence. *)
Theorem hex_round_trip (bits : list Z) :
  length bits = NUM_BITS ->
  Forall isBit bits ->
  String.length (keyToHex (bitsToBigInt bits)) = 64%nat /\
  hexToBigInt (keyToHex (bitsToBigInt bits)) = bitsToBigInt bits /\
  decodeKey (keyToHex (bitsToBigInt bits)) = bits.
Proof.
  intros Hl Hb. pose proof (bitsToBigInt_range bits Hb) as R.
  rewrite Hl in R. change (Z.of_nat NUM_BITS) with 256 in R.
  assert (E : hexToBigInt (keyToHex (bitsToBigInt bits)) = bitsToBigInt bits).
  { unfold keyToHex. rewrite hexToBigInt_padStart.
    apply hexToBigInt_toString16. lia. }
  split; [now apply keyToHex_length|].
  split; [exact E|].
  unfold decodeKey. rewrite E, <- Hl. now apply bitsOfKey_bitsToBigInt.
Qed.

Lemma hex_round_trip_witness :
  decodeKey (keyToHex (bitsToBigInt (keyAlice (theRun (constant x2a))))) =
  keyAlice (theRun (constant x2a)).
Proof.
  assert (Hl : length (keyAlice (theRun (constant x2a))) = NUM_BITS)
    by (vm_compute; reflexivity).
  assert (Hb : Forall isBit (keyAlice (theRun (constant x2a)))).
  { apply Forall_forall. intros b Hin.
    assert (D : forallb (fun b => (b =? 0) || (b =? 1))
                  (keyAlice (theRun (constant x2a))) = true)
      by (vm_compute; reflexivity).
    rewrite forallb_forall in D. specialize (D b Hin).
    apply orb_true_iff in D. unfold isBit.
    destruct D as [D | D]; apply Z.eqb_eq in D; auto. }
  exact (proj2 (proj2 (hex_round_trip _ Hl Hb))).
Defined.

(** ** Agreement of the two keys *)

Lemma extractBit_cases v :
  0 <= v < 2 ^ 256 ->
  (extractBit v = 0 /\ v < 2 ^ 255) \/ (extractBit v = 1 /\ 2 ^ 255 <= v).
Proof.
  intros Hv. unfold extractBit. rewrite Z.shiftr_div_pow2 by lia.
  change 1 with (Z.ones 1) at 1 3. rewrite Z.land_ones by lia.
  destruct (Z_lt_le_dec v (2 ^ 255)) as [L | L].
  - left. rewrite Z.div_small by lia. split; [reflexivity | exact L].
  - right. split; [|exact L].
    replace v with ((v - 2 ^ 255) + 1 * 2 ^ 255) by ring.
    rewrite Z.div_add by lia. rewrite Z.div_small by lia. reflexivity.
Qed.

(** Each party's shared value is the noiseless product, shifted by the
    other party's noise times the own secret. *)
Lemma shared_as_shift g s s' n :
  (((g * s') mod Q + n + Q) mod Q * s) mod Q = ((g * s * s') mod Q + n * s) mod Q.
Proof.
  pose proof Q_neq as HQ.
  rewrite Z.mul_mod_idemp_l by exact HQ.
  replace (((g * s') mod Q + n + Q) * s)
    with ((g * s') mod Q * s + n * s + s * Q) by ring.
  rewrite Z.mod_add by exact HQ.
  rewrite <- Z.add_mod_idemp_l by exact HQ.
  rewrite Z.mul_mod_idemp_l by exact HQ.
  rewrite Z.add_mod_idemp_l by exact HQ.
  replace (g * s' * s) with (g * s * s') by ring.
  rewrite <- Z.add_mod_idemp_l by exact HQ. reflexivity.
Qed.

(** In a dimension whose noiseless product is away from the boundaries the
    two extracted bits are equal. *)
Lemma agree_in_dimension (c : Crypto) (i : nat) :
  (i < NUM_BITS)%nat ->
  awayFromBoundaries (noiselessProduct (theRun c) i) ->
  nth i (keyAlice (theRun c)) 0 = nth i (keyBob (theRun c)) 0.
Proof.
  intros Hi Ht. unfold awayFromBoundaries, noiselessProduct in Ht.
  set (r := theRun c) in *.
  set (t := (nth i (G_ARRAY r) 0 * nth i (aliceSecrets r) 0 *
             nth i (bobSecrets r) 0) mod Q) in *.
  unfold r.
  rewrite keyAlice_nth, keyBob_nth.
  rewrite sharedAlice_nth, sharedBob_nth by exact Hi.
  rewrite alicePublicsNoisy_nth, bobPublicsNoisy_nth by exact Hi.
  rewrite alicePublics_nth, bobPublics_nth by exact Hi.
  pose proof (aliceSecrets_range c i Hi) as Ha.
  pose proof (bobSecrets_range c i Hi) as Hb.
  pose proof (aliceNoise_cases c i) as Na.
  pose proof (bobNoise_cases c i) as Nb.
  fold r in Ha, Hb |- *.
  set (g := nth i (G_ARRAY r) 0) in *.
  set (a := nth i (aliceSecrets r) 0) in *.
  set (b := nth i (bobSecrets r) 0) in *.
  rewrite (shared_as_shift g a b (bobNoise c i)).
  rewrite (shared_as_shift g b a (aliceNoise c i)).
  replace (g * b * a) with (g * a * b) by ring. fold t.
  rewrite SECRET_MAX_value in Ha, Hb. rewrite Q_value in Ht.
  assert (Ba : - 2 ^ 40 < aliceNoise c i * b < 2 ^ 40) by nia.
  assert (Bb : - 2 ^ 40 < bobNoise c i * a < 2 ^ 40) by nia.
  rewrite !Z.mod_small by (rewrite Q_value; lia).
  destruct (extractBit_cases (t + bobNoise c i * a) ltac:(lia)) as [[-> ?] | [-> ?]];
    destruct (extractBit_cases (t + aliceNoise c i * b) ltac:(lia)) as [[-> ?] | [-> ?]];
    lia.
Qed.

(** X8. The keys agree in every dimension whose noiseless product
    [G[i] * a[i] * b[i] mod Q] is at least [2^40] away from 0, from [2^255]
    and from [Q]. *)
Lemma keys_agree_away_from_boundaries (c : Crypto) (i : nat) :
  (i < NUM_BITS)%nat ->
  let r := theRun c in
  let t := (nth i (G_ARRAY r) 0 * nth i (aliceSecrets r) 0 *
            nth i (bobSecrets r) 0) mod Q in
  2 ^ 40 <= t < 2 ^ 255 - 2 ^ 40 \/ 2 ^ 255 + 2 ^ 40 <= t < Q - 2 ^ 40 ->
  nth i (keyAlice r) 0 = nth i (keyBob r) 0.
Proof. intros Hi r t Ht. exact (agree_in_dimension c i Hi Ht). Qed.

Lemma keys_agree_away_from_boundaries_example :
  nth 0 (keyAlice (theRun (constant x2a))) 0 =
  nth 0 (keyBob (theRun (constant x2a))) 0.
Proof.
  assert (Hi : (0 < NUM_BITS)%nat) by (unfold NUM_BITS; lia).
  apply (keys_agree_away_from_boundaries (constant x2a) 0 Hi).
  rewrite G_ARRAY_nth, aliceSecrets_nth, bobSecrets_nth by exact Hi.
  right. vm_compute. split; congruence.
Defined.

(** C1, which the script's header promises ("100% key agreement"), fails:
    for the generator [mismatchGen] every basis is [2^255], every secret is
    1, Alice's noise is 0 and Bob's is -1.  Alice's shared value
    [bobPublicsNoisy[i] * 1 mod Q] is [2^255 - 1], with most significant
    bit 0, and Bob's [alicePublicsNoisy[i] * 1 mod Q] is [2^255], with most
    significant bit 1: Alice's key is 0, Bob's is [2^256 - 1], and the
    script prints [false]. *)
Theorem keys_differ_at_mismatchGen :
  let r := theRun mismatchGen in
  outcome mismatchGen = inr r /\
  nth 0 (G_ARRAY r) 0 = 2 ^ 255 /\
  nth 0 (aliceSecrets r) 0 = 1 /\ nth 0 (bobSecrets r) 0 = 1 /\
  aliceNoise mismatchGen 0 = 0 /\ bobNoise mismatchGen 0 = -1 /\
  nth 0 (sharedAlice r) 0 = 2 ^ 255 - 1 /\ nth 0 (sharedBob r) 0 = 2 ^ 255 /\
  nth 0 (keyAlice r) 0 = 0 /\ nth 0 (keyBob r) 0 = 1 /\
  keyAliceBigInt r = 0 /\ keyBobBigInt r = 2 ^ 256 - 1 /\
  keysMatch r = false.
Proof.
  cbv zeta. split; [apply outcome_returns|].
  assert (Hi : (0 < NUM_BITS)%nat) by (unfold NUM_BITS; lia).
  assert (HG : nth 0 (G_ARRAY (theRun mismatchGen)) 0 = 2 ^ 255)
    by (rewrite G_ARRAY_nth by exact Hi; vm_compute; reflexivity).
  assert (Ha : nth 0 (aliceSecrets (theRun mismatchGen)) 0 = 1)
    by (rewrite aliceSecrets_nth by exact Hi; vm_compute; reflexivity).
  assert (Hb : nth 0 (bobSecrets (theRun mismatchGen)) 0 = 1)
    by (rewrite bobSecrets_nth by exact Hi; vm_compute; reflexivity).
  assert (Na : aliceNoise mismatchGen 0 = 0) by (vm_compute; reflexivity).
  assert (Nb : bobNoise mismatchGen 0 = -1) by (vm_compute; reflexivity).
  assert (Sa : nth 0 (sharedAlice (theRun mismatchGen)) 0 = 2 ^ 255 - 1).
  { rewrite sharedAlice_nth, bobPublicsNoisy_nth, bobPublics_nth by exact Hi.
    rewrite HG, Ha, Hb, Nb. vm_compute. reflexivity. }
  assert (Sb : nth 0 (sharedBob (theRun mismatchGen)) 0 = 2 ^ 255).
  { rewrite sharedBob_nth, alicePublicsNoisy_nth, alicePublics_nth by exact Hi.
    rewrite HG, Ha, Hb, Na. vm_compute. reflexivity. }
  assert (K : (keyAliceBigInt (theRun mismatchGen) =? 0) &&
              (keyBobBigInt (theRun mismatchGen) =? 2 ^ 256 - 1) &&
              negb (keysMatch (theRun mismatchGen)) = true)
    by (vm_compute; reflexivity).
  apply andb_prop in K as [K K3]. apply andb_prop in K as [K1 K2].
  apply Z.eqb_eq in K1, K2. apply negb_true_iff in K3.
  assert (Ka : nth 0 (keyAlice (theRun mismatchGen)) 0 = 0)
    by (rewrite keyAlice_nth, Sa; reflexivity).
  assert (Kb : nth 0 (keyBob (theRun mismatchGen)) 0 = 1)
    by (rewrite keyBob_nth, Sb; reflexivity).
  exact (conj HG (conj Ha (conj Hb (conj Na (conj Nb (conj Sa (conj Sb
          (conj Ka (conj Kb (conj K1 (conj K2 K3))))))))))).
Qed.

(** * Further properties of the code *)

(** ** randomBigInt at its edges *)

(** X1. For the bound 0, [randomBigInt] throws a [RangeError] ([result % 0n])
    whatever the generator produces; the bound has the one binary digit "0",
    so one byte is asked for first. *)
Theorem randomBigInt_zero_bound_throws (c : Crypto) :
  randomBigInt 0 c = inl RangeError /\ byteCount 0 = 1%nat.
Proof. split; reflexivity. Qed.

(** X2. For a negative bound whose [byteCount max] bytes (the sign counts as
    a digit) are within the quota of 65536 bytes, [randomBigInt] does not
    throw and its result is never negative: the remainder takes the sign of
    the non-negative dividend, so the result is the integer read from the
    bytes modulo [-max], in [[0, -max)].  For a longer negative bound it
    throws a [QuotaExceededError]. *)
Theorem randomBigInt_negative_bound (max : Z) (c : Crypto) :
  max < 0 ->
  ((N.of_nat (byteCount max) <= QUOTA)%N ->
   randomBigInt max c =
     inr (accumulate (peek c (byteCount max)) mod (- max),
          advance c (byteCount max)) /\
   0 <= accumulate (peek c (byteCount max)) mod (- max) < - max) /\
  ((QUOTA < N.of_nat (byteCount max))%N ->
   randomBigInt max c = inl QuotaExceededError).
Proof.
  intros Hm. split; intros Hq.
  - split.
    + rewrite randomBigInt_eq by (lia || exact Hq). unfold drawBigInt.
      replace max with (- - max) at 2 by lia.
      rewrite Z.rem_opp_r by lia.
      rewrite Z.rem_mod_nonneg; [reflexivity | apply accumulate_range | lia].
    + apply Z.mod_pos_bound. lia.
  - now apply randomBigInt_quota.
Qed.

Lemma randomBigInt_negative_bound_witness :
  randomBigInt (-3) (constant xff) =
    inr (accumulate (peek (constant xff) (byteCount (-3))) mod (- -3),
         advance (constant xff) (byteCount (-3))) /\
  randomBigInt (- Z.shiftl 1 524287) (constant xff) = inl QuotaExceededError.
Proof.
  split.
  - exact (proj1 (proj1 (randomBigInt_negative_bound (-3) (constant xff) ltac:(lia))
                    ltac:(cbv; discriminate))).
  - exact (proj2 (randomBigInt_negative_bound (- Z.shiftl 1 524287) (constant xff)
                    ltac:(vm_compute; reflexivity))
                 ltac:(vm_compute; reflexivity)).
Defined.





Lemma secrets_uniform_witness :
  0 <= 12345 < SECRET_MAX /\ preimageCount SECRET_MAX 12345 = 256%nat.
Proof.
  assert (H : 0 <= 12345 < SECRET_MAX) by (split; [lia | reflexivity]).
  split; [exact H | exact (secrets_uniform 12345 H)].
Defined.

Lemma bases_biased_witness :
  0 <= 188 < Q /\
  preimageCount Q 188 = (if 188 <? 189 then 2%nat else 1%nat) /\
  preimageCount Q 189 = (if 189 <? 189 then 2%nat else 1%nat).
Proof.
  assert (H : 0 <= 188 < Q) by (split; [lia | reflexivity]).
  assert (H' : 0 <= 189 < Q) by (split; [lia | reflexivity]).
  split; [exact H|].
  split; [exact (bases_biased 188 H) | exact (bases_biased 189 H')].
Defined.

(** ** addNoise and the bit extraction outside the residue range *)

(** X16. [addNoise] also normalises values outside [[0, Q)] as long as
    [value >= 1 - Q]: the result is [(value + n) mod Q], in [[0, Q)].  Below
    that the added [Q] is not enough: for [value < -Q - 1] the sum is
    negative, and as the remainder takes the sign of the dividend the result
    is minus [-(value + n + Q) mod Q], in [(-Q, 0]]. *)
Theorem addNoise_outside_range (value : Z) (c : Crypto) :
  let n := noiseOfByte (entropy c (drawn c)) in
  (1 - Q <= value ->
   addNoise value c = inr ((value + n) mod Q, advance c 1) /\
   0 <= (value + n) mod Q < Q) /\
  (value < - Q - 1 ->
   addNoise value c = inr (- ((- (value + n + Q)) mod Q), advance c 1) /\
   - Q < - ((- (value + n + Q)) mod Q) <= 0).
Proof.
  intros n. pose proof Q_pos as HQ.
  pose proof (noiseOfByte_cases (entropy c (drawn c))) as Hn. fold n in Hn.
  split; intros Hv.
  - split; [|apply mod_Q_range].
    rewrite addNoise_eq. fold n. rewrite rem_Q_mod by lia.
    replace (value + n + Q) with (value + n + 1 * Q) by ring.
    rewrite Z.mod_add by lia. reflexivity.
  - pose proof (mod_Q_range (- (value + n + Q))) as R.
    split; [|lia].
    rewrite addNoise_eq. fold n.
    replace (value + n + Q) with (- - (value + n + Q)) at 1 by lia.
    rewrite Z.rem_opp_l by lia. rewrite rem_Q_mod by lia. reflexivity.
Qed.

Lemma addNoise_outside_range_witness :
  addNoise (2 * Q) (constant x02) =
    inr ((2 * Q + noiseOfByte (entropy (constant x02) (drawn (constant x02)))) mod Q,
         advance (constant x02) 1) /\
  - Q < - ((- (- Q - 5 + noiseOfByte (entropy (constant x00) (drawn (constant x00))) + Q))
           mod Q) <= 0.
Proof.
  split.
  - exact (proj1 (proj1 (addNoise_outside_range (2 * Q) (constant x02))
                    ltac:(vm_compute; congruence))).
  - exact (proj2 (proj2 (addNoise_outside_range (- Q - 5) (constant x00))
                    ltac:(vm_compute; congruence))).
Defined.

Lemma extractBit_div v : extractBit v = (v / 2 ^ 255) mod 2.
Proof.
  unfold extractBit. rewrite Z.shiftr_div_pow2 by lia.
  change 1 with (Z.ones 1). rewrite Z.land_ones by lia. reflexivity.
Qed.

Lemma extractBit_isBit v : isBit (extractBit v).
Proof.
  rewrite extractBit_div. unfold isBit.
  pose proof (Z.mod_pos_bound (v / 2 ^ 255) 2 ltac:(lia)). lia.
Qed.

(** X17. For every integer, also a negative one or one of more than 256
    bits, the extracted bit [(v >> 255) & 1] is 0 or 1 and is bit 255 of [v]
    (in two's complement): the bits above it are ignored, so adding [2^256]
    does not change it. *)
Theorem extractBit_any_integer (v : Z) :
  (extractBit v = 0 \/ extractBit v = 1) /\
  extractBit v = Z.b2z (Z.testbit v 255) /\
  extractBit (v + 2 ^ 256) = extractBit v.
Proof.
  split; [apply extractBit_isBit|]. split.
  - rewrite extractBit_div. symmetry. apply Z.testbit_spec'. lia.
  - rewrite !extractBit_div.
    replace (v + 2 ^ 256) with (v + 2 * 2 ^ 255) by (change (2 ^ 256) with (2 * 2 ^ 255); ring).
    rewrite Z.div_add by lia.
    replace (v / 2 ^ 255 + 2) with (v / 2 ^ 255 + 1 * 2) by ring.
    rewrite Z.mod_add by lia. reflexivity.
Qed.

(** ** Key assembly: concatenation and injectivity *)

(** X12. Assembling the concatenation of two bit lists shifts the first key
    left by the length of the second list and adds the second key. *)
Theorem bitsToBigInt_app (l1 l2 : list Z) :
  Forall isBit l1 -> Forall isBit l2 ->
  bitsToBigInt (l1 ++ l2) =
  bitsToBigInt l1 * 2 ^ Z.of_nat (length l2) + bitsToBigInt l2.
Proof.
  intros H1 H2. pose proof (bitsToBigInt_range l1 H1) as R.
  unfold bitsToBigInt at 1. rewrite fold_left_app.
  fold (bitsToBigInt l1). apply fold_bits_from; [exact H2 | lia].
Qed.

Lemma bitsToBigInt_app_witness :
  bitsToBigInt ([1; 0] ++ [1; 1; 0]) =
  bitsToBigInt [1; 0] * 2 ^ Z.of_nat (length [1; 1; 0]) + bitsToBigInt [1; 1; 0].
Proof.
  apply bitsToBigInt_app; repeat constructor; (now left) || (now right).
Defined.

Lemma bits_equal_of_keys_equal l1 l2 :
  length l1 = length l2 -> Forall isBit l1 -> Forall isBit l2 ->
  bitsToBigInt l1 = bitsToBigInt l2 -> l1 = l2.
Proof.
  intros Hl H1 H2 E. apply (nth_ext _ _ 0 0 Hl). intros i Hi.
  rewrite <- (bit_of_key l1 H1 i Hi).
  rewrite <- (bit_of_key l2 H2 i) by lia.
  now rewrite E, Hl.
Qed.

(** X13. On bit lists of the same length [bitsToBigInt] is injective: equal
    keys come from equal bit lists.  Across lengths it is not: a leading
    zero bit does not change the key. *)
Theorem bitsToBigInt_injective (l1 l2 : list Z) :
  length l1 = length l2 -> Forall isBit l1 -> Forall isBit l2 ->
  (bitsToBigInt l1 = bitsToBigInt l2 -> l1 = l2) /\
  bitsToBigInt (0 :: l1) = bitsToBigInt l1.
Proof.
  intros Hl H1 H2. split.
  - now apply bits_equal_of_keys_equal.
  - rewrite bitsToBigInt_cons by (constructor; [now left | exact H1]). lia.
Qed.

Lemma bitsToBigInt_injective_witness :
  (bitsToBigInt [1; 0; 1] = bitsToBigInt [1; 0; 1] -> [1; 0; 1] = [1; 0; 1]) /\
  bitsToBigInt (0 :: [1; 0; 1]) = bitsToBigInt [1; 0; 1].
Proof.
  apply bitsToBigInt_injective;
    [reflexivity | |]; repeat constructor; (now left) || (now right).
Defined.

(** ** The drawn values and the shared values of a run *)

(** X6. In every run every basis lies in [[0, Q)] and every secret of
    either party lies in [[0, SECRET_MAX)], that is below [2^40]. *)
Theorem bases_and_secrets_in_range (c : Crypto) :
  let r := theRun c in
  Forall inQ (G_ARRAY r) /\
  Forall (fun s => 0 <= s < SECRET_MAX) (aliceSecrets r) /\
  Forall (fun s => 0 <= s < SECRET_MAX) (bobSecrets r) /\
  SECRET_MAX = 2 ^ 40.
Proof.
  intros r. pose proof (run_lengths c) as L. cbv zeta in L. fold r in L.
  repeat split.
  - apply (Forall_of_nth _ _ NUM_BITS); [tauto|]. intros i Hi.
    unfold inQ, r. exact (G_ARRAY_range c i Hi).
  - apply (Forall_of_nth _ _ NUM_BITS); [tauto|]. intros i Hi.
    unfold r. exact (aliceSecrets_range c i Hi).
  - apply (Forall_of_nth _ _ NUM_BITS); [tauto|]. intros i Hi.
    unfold r. exact (bobSecrets_range c i Hi).
Qed.

(** X7. In every dimension each party's shared value is the noiseless
    product shifted by the other party's noise times the own secret, modulo
    [Q]: [sharedAlice[i] = (t + bobNoise * aliceSecrets[i]) mod Q] and
    [sharedBob[i] = (t + aliceNoise * bobSecrets[i]) mod Q].  When both
    parties draw the noise 0, both shared values are the noiseless
    product. *)
Theorem shared_values_shifted_product (c : Crypto) (i : nat) :
  (i < NUM_BITS)%nat ->
  let r := theRun c in
  let t := noiselessProduct r i in
  nth i (sharedAlice r) 0 = (t + bobNoise c i * nth i (aliceSecrets r) 0) mod Q /\
  nth i (sharedBob r) 0 = (t + aliceNoise c i * nth i (bobSecrets r) 0) mod Q /\
  (aliceNoise c i = 0 -> bobNoise c i = 0 ->
   nth i (sharedAlice r) 0 = t /\ nth i (sharedBob r) 0 = t).
Proof.
  intros Hi r t. unfold t, noiselessProduct, r.
  assert (EA : nth i (sharedAlice (theRun c)) 0 =
               ((nth i (G_ARRAY (theRun c)) 0 * nth i (aliceSecrets (theRun c)) 0 *
                 nth i (bobSecrets (theRun c)) 0) mod Q +
                bobNoise c i * nth i (aliceSecrets (theRun c)) 0) mod Q).
  { rewrite sharedAlice_nth, bobPublicsNoisy_nth, bobPublics_nth by exact Hi.
    apply shared_as_shift. }
  assert (EB : nth i (sharedBob (theRun c)) 0 =
               ((nth i (G_ARRAY (theRun c)) 0 * nth i (aliceSecrets (theRun c)) 0 *
                 nth i (bobSecrets (theRun c)) 0) mod Q +
                aliceNoise c i * nth i (bobSecrets (theRun c)) 0) mod Q).
  { rewrite sharedBob_nth, alicePublicsNoisy_nth, alicePublics_nth by exact Hi.
    rewrite shared_as_shift.
    rewrite (Z.mul_shuffle0 (nth i (G_ARRAY (theRun c)) 0)
               (nth i (bobSecrets (theRun c)) 0)).
    reflexivity. }
  split; [exact EA|]. split; [exact EB|].
  intros Na Nb. rewrite EA, EB, Na, Nb.
  rewrite !Z.mul_0_l, !Z.add_0_r, Z.mod_mod by apply Q_neq. split; reflexivity.
Qed.

Lemma shared_values_shifted_product_witness :
  nth 0 (sharedAlice (theRun mismatchGen)) 0 =
  (noiselessProduct (theRun mismatchGen) 0 +
   bobNoise mismatchGen 0 * nth 0 (aliceSecrets (theRun mismatchGen)) 0) mod Q.
Proof.
  exact (proj1 (shared_values_shifted_product mismatchGen 0
                  ltac:(unfold NUM_BITS; lia))).
Defined.

(** ** The keys of a run *)

Lemma keyAlice_bits c : Forall isBit (keyAlice (theRun c)).
Proof.
  rewrite theRun_described. unfold described. cbn [keyAlice].
  apply Forall_forall. intros x Hx.
  apply in_map_iff in Hx as (v & <- & _). apply extractBit_isBit.
Qed.

Lemma keyBob_bits c : Forall isBit (keyBob (theRun c)).
Proof.
  rewrite theRun_described. unfold described. cbn [keyBob].
  apply Forall_forall. intros x Hx.
  apply in_map_iff in Hx as (v & <- & _). apply extractBit_isBit.
Qed.

Lemma key_fields c :
  keyAliceBigInt (theRun c) = bitsToBigInt (keyAlice (theRun c)) /\
  keyBobBigInt (theRun c) = bitsToBigInt (keyBob (theRun c)) /\
  aliceLine (theRun c) = keyToHex (keyAliceBigInt (theRun c)) /\
  bobLine (theRun c) = keyToHex (keyBobBigInt (theRun c)) /\
  keysMatch (theRun c) = (keyAliceBigInt (theRun c) =? keyBobBigInt (theRun c)).
Proof.
  rewrite theRun_described. unfold described.
  cbn [keyAliceBigInt keyBobBigInt keyAlice keyBob aliceLine bobLine keysMatch].
  repeat split; reflexivity.
Qed.

Lemma key_ranges c :
  0 <= keyAliceBigInt (theRun c) < 2 ^ 256 /\
  0 <= keyBobBigInt (theRun c) < 2 ^ 256.
Proof.
  destruct (key_fields c) as (EA & EB & _).
  pose proof (run_lengths c) as L. cbv zeta in L.
  destruct L as (_ & _ & _ & _ & _ & _ & _ & _ & _ & LA & LB).
  pose proof (bitsToBigInt_range _ (keyAlice_bits c)) as RA.
  pose proof (bitsToBigInt_range _ (keyBob_bits c)) as RB.
  rewrite LA in RA. rewrite LB in RB.
  change (Z.of_nat NUM_BITS) with 256 in RA, RB.
  rewrite EA, EB. split; assumption.
Qed.

Lemma keyToHex_injective k1 k2 :
  0 <= k1 -> 0 <= k2 -> keyToHex k1 = keyToHex k2 -> k1 = k2.
Proof.
  intros H1 H2 E.
  rewrite <- (hexToBigInt_toString16 k1 H1), <- (hexToBigInt_toString16 k2 H2).
  rewrite <- (hexToBigInt_padStart 64 (toString16 k1)).
  rewrite <- (hexToBigInt_padStart 64 (toString16 k2)).
  unfold keyToHex in E. now rewrite E.
Qed.

(** X10. In every run each key is a list of 256 bits, each 0 or 1; the
    assembled keys lie in [[0, 2^256)], and each of the two printed key
    lines has exactly 64 characters. *)
Theorem keys_are_256_bits (c : Crypto) :
  let r := theRun c in
  Forall isBit (keyAlice r) /\ Forall isBit (keyBob r) /\
  length (keyAlice r) = NUM_BITS /\ length (keyBob r) = NUM_BITS /\
  0 <= keyAliceBigInt r < 2 ^ 256 /\ 0 <= keyBobBigInt r < 2 ^ 256 /\
  String.length (aliceLine r) = 64%nat /\ String.length (bobLine r) = 64%nat.
Proof.
  intros r. unfold r.
  pose proof (run_lengths c) as L. cbv zeta in L.
  destruct L as (_ & _ & _ & _ & _ & _ & _ & _ & _ & LA & LB).
  destruct (key_fields c) as (_ & _ & HA & HB & _).
  destruct (key_ranges c) as (RA & RB).
  split; [apply keyAlice_bits|]. split; [apply keyBob_bits|].
  split; [exact LA|]. split; [exact LB|].
  split; [exact RA|]. split; [exact RB|].
  rewrite HA, HB. split; now apply keyToHex_length.
Qed.

(** X11. The boolean the script prints is [true] exactly when the two keys
    are the same list of bits, and exactly when the two printed key lines
    are the same string. *)
Theorem keysMatch_iff (c : Crypto) :
  let r := theRun c in
  (keysMatch r = true <-> keyAlice r = keyBob r) /\
  (keysMatch r = true <-> aliceLine r = bobLine r).
Proof.
  intros r. unfold r.
  pose proof (run_lengths c) as L. cbv zeta in L.
  destruct L as (_ & _ & _ & _ & _ & _ & _ & _ & _ & LA & LB).
  destruct (key_fields c) as (EA & EB & HA & HB & HM).
  destruct (key_ranges c) as (RA & RB).
  rewrite HM, Z.eqb_eq. split; split; intros H.
  - rewrite EA, EB in H.
    apply bits_equal_of_keys_equal;
      [rewrite LA, LB; reflexivity | apply keyAlice_bits | apply keyBob_bits
      | exact H].
  - rewrite EA, EB, H. reflexivity.
  - rewrite HA, HB, H. reflexivity.
  - rewrite HA, HB in H.
    exact (keyToHex_injective _ _ (proj1 RA) (proj1 RB) H).
Qed.

(** X9. When the noiseless product of every dimension is away from the
    boundaries, the two keys are equal, the script prints [true], and the
    two printed key lines are equal. *)
Theorem keys_match_when_all_away (c : Crypto) :
  (forall i, (i < NUM_BITS)%nat ->
     awayFromBoundaries (noiselessProduct (theRun c) i)) ->
  keyAlice (theRun c) = keyBob (theRun c) /\
  keysMatch (theRun c) = true /\
  aliceLine (theRun c) = bobLine (theRun c).
Proof.
  intros H.
  pose proof (run_lengths c) as L. cbv zeta in L.
  destruct L as (_ & _ & _ & _ & _ & _ & _ & _ & _ & LA & LB).
  destruct (key_fields c) as (EA & EB & HA & HB & HM).
  assert (E : keyAlice (theRun c) = keyBob (theRun c)).
  { apply (nth_ext _ _ 0 0); [rewrite LA, LB; reflexivity|].
    intros i Hi. rewrite LA in Hi. apply agree_in_dimension; [exact Hi|].
    apply H. exact Hi. }
  split; [exact E|].
  assert (K : keyAliceBigInt (theRun c) = keyBobBigInt (theRun c))
    by (rewrite EA, EB, E; reflexivity).
  split.
  - rewrite HM. apply Z.eqb_eq. exact K.
  - rewrite HA, HB, K. reflexivity.
Qed.

Lemma awayFromBoundariesb_true t :
  awayFromBoundariesb t = true -> awayFromBoundaries t.
Proof.
  unfold awayFromBoundariesb, awayFromBoundaries. intros H.
  apply orb_true_iff in H as [H | H]; apply andb_true_iff in H as [H1 H2];
    apply Z.leb_le in H1; apply Z.ltb_lt in H2; [left | right]; split; assumption.
Qed.

Lemma keys_match_when_all_away_witness :
  keyAlice (theRun (constant x2a)) = keyBob (theRun (constant x2a)) /\
  keysMatch (theRun (constant x2a)) = true.
Proof.
  assert (H : forall i, (i < NUM_BITS)%nat ->
            awayFromBoundaries (noiselessProduct (theRun (constant x2a)) i)).
  { intros i Hi. unfold noiselessProduct.
    rewrite G_ARRAY_nth, aliceSecrets_nth, bobSecrets_nth by exact Hi.
    apply awayFromBoundariesb_true.
    assert (A : forallb (fun i =>
                  awayFromBoundariesb
                    ((drawnInt Q OFF_G (constant x2a) i *
                      drawnInt SECRET_MAX OFF_AS (constant x2a) i *
                      drawnInt SECRET_MAX OFF_BS (constant x2a) i) mod Q))
                  (seq 0 NUM_BITS) = true) by (vm_compute; reflexivity).
    rewrite forallb_forall in A. apply A. apply in_seq. lia. }
  split.
  - exact (proj1 (keys_match_when_all_away (constant x2a) H)).
  - exact (proj1 (proj2 (keys_match_when_all_away (constant x2a) H))).
Defined.

(** ** The bytes a run reads *)

Lemma peek_advance_ext c1 c2 p n :
  (forall k, (k < n)%nat -> sameByte c1 c2 (p + k)) ->
  peek (advance c1 p) n = peek (advance c2 p) n.
Proof.
  intros H. unfold peek. apply map_ext_in. intros k Hk.
  apply in_seq in Hk. specialize (H k ltac:(lia)). unfold sameByte in H.
  cbn [advance entropy drawn].
  replace (N.of_nat k + (N.of_nat p + drawn c1))%N
    with (N.of_nat (p + k) + drawn c1)%N by lia.
  replace (N.of_nat k + (N.of_nat p + drawn c2))%N
    with (N.of_nat (p + k) + drawn c2)%N by lia.
  exact H.
Qed.

Lemma drawnInt_ext max off c1 c2 i :
  (forall k, (k < byteCount max)%nat ->
     sameByte c1 c2 (off + byteCount max * i + k)) ->
  drawnInt max off c1 i = drawnInt max off c2 i.
Proof.
  intros H. unfold drawnInt, drawBigInt.
  now rewrite (peek_advance_ext c1 c2 _ _ H).
Qed.

Lemma drawnNoise_ext off c1 c2 i :
  sameByte c1 c2 (off + i) -> drawnNoise off c1 i = drawnNoise off c2 i.
Proof. intros H. unfold drawnNoise. unfold sameByte in H. now rewrite H. Qed.

Lemma tabulate_ext {A : Type} (f g : nat -> A) n :
  (forall i, (i < n)%nat -> f i = g i) -> tabulate f n = tabulate g n.
Proof.
  intros H. unfold tabulate. apply map_ext_in. intros i Hi.
  apply in_seq in Hi. apply H. lia.
Qed.

Lemma TOTAL_value : TOTAL = (46 * NUM_BITS)%nat.
Proof. reflexivity. Qed.

Lemma sameDimensionBytes_of_agreeOn c1 c2 i :
  (i < NUM_BITS)%nat -> agreeOn c1 c2 TOTAL -> sameDimensionBytes c1 c2 i.
Proof.
  intros Hi H. unfold agreeOn in H. rewrite TOTAL_value in H.
  unfold sameDimensionBytes, OFF_BN, OFF_BS, OFF_AN, OFF_AS, OFF_G.
  repeat split; intros; apply H; lia.
Qed.

Lemma dimension_draws_ext c1 c2 i :
  sameDimensionBytes c1 c2 i ->
  drawnInt Q OFF_G c1 i = drawnInt Q OFF_G c2 i /\
  drawnInt SECRET_MAX OFF_AS c1 i = drawnInt SECRET_MAX OFF_AS c2 i /\
  aliceNoise c1 i = aliceNoise c2 i /\
  drawnInt SECRET_MAX OFF_BS c1 i = drawnInt SECRET_MAX OFF_BS c2 i /\
  bobNoise c1 i = bobNoise c2 i.
Proof.
  intros (HG & HA & HNA & HB & HNB).
  split; [apply drawnInt_ext; rewrite byteCount_Q; exact HG|].
  split; [apply drawnInt_ext; rewrite byteCount_SECRET_MAX; exact HA|].
  split; [apply drawnNoise_ext; exact HNA|].
  split; [apply drawnInt_ext; rewrite byteCount_SECRET_MAX; exact HB|].
  apply drawnNoise_ext; exact HNB.
Qed.

(** X14. The script reads exactly the next [TOTAL = 46 * 256] bytes of the
    generator, never throws, and its run depends on nothing else: two
    generators that produce the same next [TOTAL] bytes give the same run,
    whatever they produce afterwards. *)
Theorem script_reads_exactly_TOTAL (c1 c2 : Crypto) :
  agreeOn c1 c2 TOTAL ->
  TOTAL = (46 * NUM_BITS)%nat /\
  script c1 = inr (theRun c1, advance c1 TOTAL) /\
  script c2 = inr (theRun c2, advance c2 TOTAL) /\
  theRun c1 = theRun c2.
Proof.
  intros H. split; [reflexivity|].
  split; [apply script_returns|]. split; [apply script_returns|].
  assert (D : forall i, (i < NUM_BITS)%nat ->
            drawnInt Q OFF_G c1 i = drawnInt Q OFF_G c2 i /\
            drawnInt SECRET_MAX OFF_AS c1 i = drawnInt SECRET_MAX OFF_AS c2 i /\
            aliceNoise c1 i = aliceNoise c2 i /\
            drawnInt SECRET_MAX OFF_BS c1 i = drawnInt SECRET_MAX OFF_BS c2 i /\
            bobNoise c1 i = bobNoise c2 i).
  { intros i Hi. apply dimension_draws_ext.
    now apply sameDimensionBytes_of_agreeOn. }
  rewrite (theRun_described c1), (theRun_described c2). unfold described.
  rewrite (tabulate_ext (drawnInt Q OFF_G c1) (drawnInt Q OFF_G c2))
    by (intros i Hi; apply (D i Hi)).
  rewrite (tabulate_ext (drawnInt SECRET_MAX OFF_AS c1) (drawnInt SECRET_MAX OFF_AS c2))
    by (intros i Hi; apply (D i Hi)).
  rewrite (tabulate_ext (aliceNoise c1) (aliceNoise c2))
    by (intros i Hi; apply (D i Hi)).
  rewrite (tabulate_ext (drawnInt SECRET_MAX OFF_BS c1) (drawnInt SECRET_MAX OFF_BS c2))
    by (intros i Hi; apply (D i Hi)).
  rewrite (tabulate_ext (bobNoise c1) (bobNoise c2))
    by (intros i Hi; apply (D i Hi)).
  reflexivity.
Qed.

Lemma script_reads_exactly_TOTAL_witness :
  entropy (constant x00) 11776%N <> entropy zerosThenOnes 11776%N /\
  theRun (constant x00) = theRun zerosThenOnes.
Proof.
  split; [discriminate|].
  assert (H : agreeOn (constant x00) zerosThenOnes TOTAL).
  { intros k Hk. rewrite TOTAL_value in Hk. unfold NUM_BITS in Hk.
    unfold sameByte, constant, zerosThenOnes. cbn [entropy drawn].
    destruct (N.ltb_spec (N.of_nat k + 0) 11776); [reflexivity | lia]. }
  exact (proj2 (proj2 (proj2 (script_reads_exactly_TOTAL _ _ H)))).
Defined.

(** X15. The key bits of dimension [i] depend only on the 46 bytes read for
    that dimension (32 for the basis, 6 for each secret, 1 for each noise):
    two generators that produce the same bytes there derive the same bit
    [i] for Alice and the same bit [i] for Bob. *)
Theorem key_bit_locality (c1 c2 : Crypto) (i : nat) :
  (i < NUM_BITS)%nat ->
  sameDimensionBytes c1 c2 i ->
  nth i (keyAlice (theRun c1)) 0 = nth i (keyAlice (theRun c2)) 0 /\
  nth i (keyBob (theRun c1)) 0 = nth i (keyBob (theRun c2)) 0.
Proof.
  intros Hi H.
  destruct (dimension_draws_ext c1 c2 i H) as (EG & EA & ENA & EB & ENB).
  rewrite !keyAlice_nth, !keyBob_nth.
  rewrite !sharedAlice_nth, !sharedBob_nth by exact Hi.
  rewrite !alicePublicsNoisy_nth, !bobPublicsNoisy_nth by exact Hi.
  rewrite !alicePublics_nth, !bobPublics_nth by exact Hi.
  rewrite !G_ARRAY_nth, !aliceSecrets_nth, !bobSecrets_nth by exact Hi.
  rewrite EG, EA, ENA, EB, ENB. split; reflexivity.
Qed.

Lemma key_bit_locality_witness :
  entropy (constant x00) 32%N <> entropy oneOff 32%N /\
  nth 0 (keyAlice (theRun (constant x00))) 0 = nth 0 (keyAlice (theRun oneOff)) 0 /\
  nth 0 (keyBob (theRun (constant x00))) 0 = nth 0 (keyBob (theRun oneOff)) 0.
Proof.
  split; [discriminate|].
  assert (Hi : (0 < NUM_BITS)%nat) by (unfold NUM_BITS; lia).
  assert (H : sameDimensionBytes (constant x00) oneOff 0).
  { unfold sameDimensionBytes, sameByte, constant, oneOff,
      OFF_BN, OFF_BS, OFF_AN, OFF_AS, OFF_G, NUM_BITS.
    cbn [entropy drawn].
    repeat split; intros;
      match goal with
      | |- _ = (if (?x =? 32)%N then _ else _) =>
          destruct (N.eqb_spec x 32); [lia | reflexivity]
      end. }
  exact (key_bit_locality (constant x00) oneOff 0 Hi H).
Defined.

(** ** What the noise hides, and a zero secret *)

Lemma unperturb p n :
  0 <= p < Q -> ((p + n + Q) mod Q - n) mod Q = p.
Proof.
  intros Hp. pose proof Q_neq as HQ.
  rewrite Zminus_mod_idemp_l.
  replace (p + n + Q - n) with (p + 1 * Q) by ring.
  rewrite Z.mod_add by exact HQ. apply Z.mod_small. exact Hp.
Qed.

(** X18. The noise hides little: in every dimension each party's public
    value is its noisy public value minus the noise, modulo [Q], and the
    noise is -1, 0 or +1, so the public value is one of three residues
    around the exchanged one. *)
Theorem public_value_within_one_of_noisy (c : Crypto) (i : nat) :
  (i < NUM_BITS)%nat ->
  let r := theRun c in
  nth i (alicePublics r) 0 =
    (nth i (alicePublicsNoisy r) 0 - aliceNoise c i) mod Q /\
  nth i (bobPublics r) 0 =
    (nth i (bobPublicsNoisy r) 0 - bobNoise c i) mod Q /\
  (aliceNoise c i = -1 \/ aliceNoise c i = 0 \/ aliceNoise c i = 1) /\
  (bobNoise c i = -1 \/ bobNoise c i = 0 \/ bobNoise c i = 1).
Proof.
  intros Hi r. unfold r.
  assert (RA : 0 <= nth i (alicePublics (theRun c)) 0 < Q)
    by (rewrite alicePublics_nth by exact Hi; apply mod_Q_range).
  assert (RB : 0 <= nth i (bobPublics (theRun c)) 0 < Q)
    by (rewrite bobPublics_nth by exact Hi; apply mod_Q_range).
  split; [|split; [|split; [apply aliceNoise_cases | apply bobNoise_cases]]].
  - rewrite alicePublicsNoisy_nth by exact Hi. symmetry. apply unperturb, RA.
  - rewrite bobPublicsNoisy_nth by exact Hi. symmetry. apply unperturb, RB.
Qed.

Lemma public_value_within_one_of_noisy_witness :
  nth 5 (alicePublics (theRun (constant x2a))) 0 =
  (nth 5 (alicePublicsNoisy (theRun (constant x2a))) 0 - aliceNoise (constant x2a) 5)
    mod Q.
Proof.
  exact (proj1 (public_value_within_one_of_noisy (constant x2a) 5
                  ltac:(unfold NUM_BITS; lia))).
Defined.

(** X19. A zero secret breaks the agreement without any boundary: when
    Alice's secret of dimension [i] is 0, her shared value and her key bit
    are 0, while Bob's key bit is 1 exactly when Alice drew the noise -1
    and Bob's secret is not 0 (his shared value is then [Q - bobSecrets[i]]). *)
Theorem zero_secret_bits (c : Crypto) (i : nat) :
  (i < NUM_BITS)%nat ->
  let r := theRun c in
  nth i (aliceSecrets r) 0 = 0 ->
  nth i (sharedAlice r) 0 = 0 /\
  nth i (keyAlice r) 0 = 0 /\
  (nth i (keyBob r) 0 = 1 <->
   aliceNoise c i = -1 /\ 0 < nth i (bobSecrets r) 0).
Proof.
  intros Hi r Ha. unfold r in *.
  pose proof (bobSecrets_range c i Hi) as Hb. rewrite SECRET_MAX_value in Hb.
  pose proof (aliceNoise_cases c i) as Na.
  pose proof Q_value as HQ.
  assert (SA : nth i (sharedAlice (theRun c)) 0 = 0).
  { rewrite sharedAlice_nth by exact Hi. rewrite Ha, Z.mul_0_r.
    apply Z.mod_0_l, Q_neq. }
  assert (SB : nth i (sharedBob (theRun c)) 0 =
               (aliceNoise c i * nth i (bobSecrets (theRun c)) 0) mod Q).
  { rewrite sharedBob_nth, alicePublicsNoisy_nth, alicePublics_nth by exact Hi.
    rewrite shared_as_shift, Ha, Z.mul_0_r.
    rewrite (Z.mod_0_l Q Q_neq), Z.add_0_l. reflexivity. }
  split; [exact SA|]. split.
  - rewrite keyAlice_nth, SA. reflexivity.
  - rewrite keyBob_nth, SB.
    set (b := nth i (bobSecrets (theRun c)) 0) in *.
    destruct Na as [N | [N | N]]; rewrite N.
    + destruct (Z.eq_dec b 0) as [B0 | B0].
      * rewrite B0. change ((-1 * 0) mod Q) with 0.
        change (extractBit 0) with 0. split; [discriminate | lia].
      * assert (E : (-1 * b) mod Q = Q - b).
        { symmetry. apply (Z.mod_unique_pos _ _ (-1)); lia. }
        rewrite E.
        destruct (extractBit_cases (Q - b) ltac:(lia)) as [[? ?] | [-> ?]]; [lia|].
        split; [intros _; split; lia | reflexivity].
    + rewrite Z.mul_0_l, (Z.mod_0_l Q Q_neq). change (extractBit 0) with 0.
      split; [discriminate | lia].
    + rewrite Z.mul_1_l, Z.mod_small by lia.
      destruct (extractBit_cases b ltac:(lia)) as [[-> ?] | [? ?]]; [|lia].
      split; [discriminate | lia].
Qed.

Lemma zero_secret_bits_witness :
  nth 0 (aliceSecrets (theRun (constant x00))) 0 = 0 /\
  nth 0 (keyAlice (theRun (constant x00))) 0 = 0.
Proof.
  assert (Hi : (0 < NUM_BITS)%nat) by (unfold NUM_BITS; lia).
  assert (Ha : nth 0 (aliceSecrets (theRun (constant x00))) 0 = 0)
    by (rewrite aliceSecrets_nth by exact Hi; vm_compute; reflexivity).
  split; [exact Ha|].
  exact (proj1 (proj2 (zero_secret_bits (constant x00) 0 Hi Ha))).
Defined.
